(** * go-hotkey: the event relay of [newEventChan] and the [Hotkey] life cycle

    A shallow embedding of [hotkey.go].

    - [EventChan] models the goroutine started by [newEventChan]
      (lines 124-157): the two unbuffered Go channels [in] and [out], the
      worker's program points and its slice [q], as a labelled step
      function; producer, worker and consumer meet in rendezvous steps.
    - [Hotkey] models the [Hotkey] struct and [New], [Register],
      [Unregister], [Keydown], [Keyup], [String] and the finalizer set in
      [New], in a state and panic monad over the package state (the
      allocated event channels, the global [KeyMap], the platform).

    [platformHotkey], [hk.register], [hk.unregister], the types [Key] and
    [Modifier] and their constants are declared in the platform-specific
    files of the package, outside [hotkey.go]; they enter through the
    class [Platform] and through definitions modelled from the
    specification. *)

From stdpp Require Import base list strings gmap pretty.

Set Default Proof Using "Type".

(** ** Results of a step: returned, suspended on a channel, or panicked *)

Inductive outcome (A : Type) : Type :=
| Done (a : A)
| Blocked
| Panic (msg : string).
Arguments Done {A} a.
Arguments Blocked {A}.
Arguments Panic {A} msg.

Definition send_on_closed : string := "send on closed channel".
Definition close_of_closed : string := "close of closed channel".
Definition close_of_nil : string := "close of nil channel".

(** ** The worker of [newEventChan] *)

Module EventChan.
Section Worker.
(** The element type.  The source fixes it to [Event], an empty struct;
    the worker never inspects an element, so it is kept generic here and
    instantiated at [Event] by the [Hotkey] layer.  With distinguishable
    elements the order of delivery becomes visible. *)
Context {E : Type}.

(** Program points of the goroutine, each with the contents of [q]. *)
Inductive worker : Type :=
| AtRecvIn                          (* line 131, [e, ok := <-in]; [q] is empty *)
| AtSelect (hd : E) (tl : list E)   (* line 138, [select]; [q = hd :: tl] *)
| AtDrain (hd : E) (tl : list E)    (* line 148, [out <- e]; [hd :: tl] still to range over *)
| Exited.                           (* [close(out); return] done *)

(** [in] is closed by the owner of the producer handle; [out] is closed by
    the worker only, in the step that reaches [Exited]. *)
Record chan : Type := Chan { in_closed : bool; wk : worker }.

Definition out_closed (c : chan) : bool :=
  match wk c with Exited => true | _ => false end.

(** [in, out := make(chan Event), make(chan Event)], [var q []Event] and
    the goroutine parked at its first receive. *)
Definition newChan : chan := Chan false AtRecvIn.

(** The events held by the worker and not yet delivered. *)
Definition pending (w : worker) : list E :=
  match w with
  | AtRecvIn | Exited => []
  | AtSelect hd tl | AtDrain hd tl => hd :: tl
  end.

(** [for len(q) > 0 { select ... }], falling back to the outer [for]. *)
Definition loop_head (q : list E) : worker :=
  match q with
  | [] => AtRecvIn
  | hd :: tl => AtSelect hd tl
  end.

(** [for _, e := range q { out <- e }; close(out); return]. *)
Definition drain_head (q : list E) : worker :=
  match q with
  | [] => Exited
  | hd :: tl => AtDrain hd tl
  end.

(** What the three parties can do. *)
Inductive action : Type :=
| Send (e : E)   (* producer: [in <- e] *)
| Close          (* producer: [close(in)] *)
| SeeClose       (* worker: a receive on [in] yields [ok = false] *)
| Recv.          (* consumer: [<-out] *)

(** What a receive on [out] yields. *)
Inductive obs : Type :=
| Got (e : E)
| GotClosed.

Definition step (c : chan) (a : action) : outcome (chan * option obs) :=
  match a with
  | Send e =>
      if in_closed c then Panic send_on_closed
      else match wk c with
           | AtRecvIn | AtSelect _ _ =>
               (* lines 131/136 and 142-145: [q = append(q, e)] *)
               Done (Chan false (loop_head (pending (wk c) ++ [e])), None)
           | AtDrain _ _ | Exited => Blocked
           end
  | Close =>
      if in_closed c then Panic close_of_closed
      else Done (Chan true (wk c), None)
  | SeeClose =>
      if in_closed c then
        match wk c with
        | AtRecvIn => Done (Chan true Exited, None)                     (* lines 132-135 *)
        | AtSelect hd tl => Done (Chan true (drain_head (hd :: tl)), None)  (* line 147 *)
        | AtDrain _ _ | Exited => Blocked
        end
      else Blocked
  | Recv =>
      match wk c with
      | AtRecvIn => Blocked
      | AtSelect hd tl =>
          (* lines 139-141: [out <- q[0]]; [q = q[1:]] *)
          Done (Chan (in_closed c) (loop_head tl), Some (Got hd))
      | AtDrain hd tl =>
          (* line 148, then line 150 after the last element *)
          Done (Chan (in_closed c) (drain_head tl), Some (Got hd))
      | Exited => Done (c, Some GotClosed)
      end
  end.

(** A schedule is the sequence of rendezvous and internal steps of one
    execution; [run] collects what the consumer saw. *)
Fixpoint run (c : chan) (sch : list action) : outcome (chan * list obs) :=
  match sch with
  | [] => Done (c, [])
  | a :: sch' =>
      match step c a with
      | Done (c', o) =>
          match run c' sch' with
          | Done (c'', os) => Done (c'', from_option (λ x, [x]) [] o ++ os)
          | Blocked => Blocked
          | Panic m => Panic m
          end
      | Blocked => Blocked
      | Panic m => Panic m
      end
  end.

Definition sent (a : action) : list E :=
  match a with Send e => [e] | _ => [] end.

Definition sends (sch : list action) : list E := sch ≫= sent.

Definition event (o : obs) : list E :=
  match o with Got e => [e] | GotClosed => [] end.

Definition events (os : list obs) : list E := os ≫= event.

(** The event, if any, that one step hands to the consumer. *)
Definition received (o : option obs) : list E := from_option event [] o.

(** One [<-out] of the consumer carried to its return: when the worker
    is not yet offering anything on [out], it first has to notice that
    [in] was closed. *)
Definition receive (c : chan) : outcome (chan * obs) :=
  match step c Recv with
  | Done (c', Some o) => Done (c', o)
  | Done (_, None) => Blocked
  | Panic m => Panic m
  | Blocked =>
      match step c SeeClose with
      | Done (c', _) =>
          match step c' Recv with
          | Done (c'', Some o) => Done (c'', o)
          | Done (_, None) => Blocked
          | Blocked => Blocked
          | Panic m => Panic m
          end
      | Blocked => Blocked
      | Panic m => Panic m
      end
  end.

(** [n] receives in a row by the consumer. *)
Fixpoint consume (n : nat) (c : chan) : outcome (chan * list obs) :=
  match n with
  | 0 => Done (c, [])
  | S n' =>
      match receive c with
      | Done (c', o) =>
          match consume n' c' with
          | Done (c'', os) => Done (c'', o :: os)
          | Blocked => Blocked
          | Panic m => Panic m
          end
      | Blocked => Blocked
      | Panic m => Panic m
      end
  end.

(** States the worker can be in: while [in] is open it is at one of its
    two receives on [in]. *)
Definition wf (c : chan) : Prop :=
  in_closed c = false → wk c = AtRecvIn ∨ ∃ hd tl, wk c = AtSelect hd tl.

End Worker.
Global Arguments worker : clear implicits.
Global Arguments chan : clear implicits.
Global Arguments action : clear implicits.
Global Arguments obs : clear implicits.
End EventChan.

(** ** The package: [Hotkey], its operations and the global [KeyMap] *)

(** [type Event struct{}]. *)
Inductive Event : Type := mkEvent.

(** The constants of type [Key] that [KeyMap] mentions (lines 159-228). *)
Inductive KeyName : Type :=
| KeySpace | Key1 | Key2 | Key3 | Key4 | Key5 | Key6 | Key7 | Key8 | Key9
| Key0 | KeyA | KeyB | KeyC | KeyD | KeyE | KeyF | KeyG | KeyH | KeyI | KeyJ
| KeyK | KeyL | KeyM | KeyN | KeyO | KeyP | KeyQ | KeyR | KeyS | KeyT | KeyU
| KeyV | KeyW | KeyX | KeyY | KeyZ | KeyReturn | KeyEscape | KeyDelete
| KeyTab | KeyLeft | KeyRight | KeyUp | KeyDown | KeyF1 | KeyF2 | KeyF3
| KeyF4 | KeyF5 | KeyF6 | KeyF7 | KeyF8 | KeyF9 | KeyF10 | KeyF11 | KeyF12
| KeyF13 | KeyF14 | KeyF15 | KeyF16 | KeyF17 | KeyF18 | KeyF19 | KeyF20.

(** The Go identifier of each of these constants. *)
Definition keyName (k : KeyName) : string :=
  match k with
  | KeySpace => "KeySpace" | Key1 => "Key1" | Key2 => "Key2" | Key3 => "Key3"
  | Key4 => "Key4" | Key5 => "Key5" | Key6 => "Key6" | Key7 => "Key7"
  | Key8 => "Key8" | Key9 => "Key9" | Key0 => "Key0" | KeyA => "KeyA"
  | KeyB => "KeyB" | KeyC => "KeyC" | KeyD => "KeyD" | KeyE => "KeyE"
  | KeyF => "KeyF" | KeyG => "KeyG" | KeyH => "KeyH" | KeyI => "KeyI"
  | KeyJ => "KeyJ" | KeyK => "KeyK" | KeyL => "KeyL" | KeyM => "KeyM"
  | KeyN => "KeyN" | KeyO => "KeyO" | KeyP => "KeyP" | KeyQ => "KeyQ"
  | KeyR => "KeyR" | KeyS => "KeyS" | KeyT => "KeyT" | KeyU => "KeyU"
  | KeyV => "KeyV" | KeyW => "KeyW" | KeyX => "KeyX" | KeyY => "KeyY"
  | KeyZ => "KeyZ" | KeyReturn => "KeyReturn" | KeyEscape => "KeyEscape"
  | KeyDelete => "KeyDelete" | KeyTab => "KeyTab" | KeyLeft => "KeyLeft"
  | KeyRight => "KeyRight" | KeyUp => "KeyUp" | KeyDown => "KeyDown"
  | KeyF1 => "KeyF1" | KeyF2 => "KeyF2" | KeyF3 => "KeyF3" | KeyF4 => "KeyF4"
  | KeyF5 => "KeyF5" | KeyF6 => "KeyF6" | KeyF7 => "KeyF7" | KeyF8 => "KeyF8"
  | KeyF9 => "KeyF9" | KeyF10 => "KeyF10" | KeyF11 => "KeyF11"
  | KeyF12 => "KeyF12" | KeyF13 => "KeyF13" | KeyF14 => "KeyF14"
  | KeyF15 => "KeyF15" | KeyF16 => "KeyF16" | KeyF17 => "KeyF17"
  | KeyF18 => "KeyF18" | KeyF19 => "KeyF19" | KeyF20 => "KeyF20"
  end.

(** Modelled from the spec: what [hotkey.go] takes from the
    platform-specific files of the package.  [Key], [Modifier] and the key
    constants are declarations used by [hotkey.go]; [fmtKey] and
    [fmtModifier] stand for [fmt.Sprintf("%v", _)] at these types.  The
    remaining fields are the platform registration backend,
    [backend.register(modifiers, key, onKeydown, onKeyup) -> token | error]
    and [backend.unregister(token) -> error | success], over a state
    [World] of the operating system.  The two callbacks are fixed by the
    Hotkey (see [onKeydown] and [onKeyup] below) and are not passed. *)
Class Platform : Type := {
  Key : Type;
  Modifier : Type;
  keyCode : KeyName → Key;
  fmtKey : Key → string;
  fmtModifier : Modifier → string;
  Token : Type;
  World : Type;
  Error : Type;
  backend_register : list Modifier → Key → World → World * (Token + Error);
  backend_unregister : Token → World → World * option Error;
  (** what [hk.unregister] answers when there is no token to release *)
  not_registered : option Error;
}.

Module Hotkey.
Import EventChan.
Section Package.
Context `{P : Platform}.

(** An event channel is known by the position at which [newEventChan]
    allocated it; [chan<- Event] names its [in], [<-chan Event] its [out].
    A handle without an allocated channel plays the role of [nil]. *)
Inductive sendH : Type := InOf (id : nat).
Inductive recvH : Type := OutOf (id : nat).

Definition in_id (h : sendH) : nat := match h with InOf n => n end.
Definition out_id (h : recvH) : nat := match h with OutOf n => n end.

(** Calls made to the registration backend, in the order made. *)
Inductive Call : Type :=
| CallRegister (ms : list Modifier) (k : Key)
| CallUnregister (t : Token).

(** The state the package runs in: every event channel allocated so far
    with its worker, the package-level variable [KeyMap], the backend and
    the calls it has received. *)
Record Pkg : Type := mkPkg {
  chans : list (chan Event);
  keyMap : gmap string Key;
  world : World;
  calls : list Call;
}.

Definition set_chans (f : list (chan Event) → list (chan Event)) (s : Pkg) : Pkg :=
  mkPkg (f (chans s)) (keyMap s) (world s) (calls s).

Definition backend_called (w : World) (c : Call) (s : Pkg) : Pkg :=
  mkPkg (chans s) (keyMap s) w (calls s ++ [c]).

(** [type Hotkey struct] (lines 51-61); the embedded [platformHotkey]
    holds the backend token while registered and is empty otherwise. *)
Record Hotkey : Type := mkHotkey {
  platformHotkey : option Token;
  mods : list Modifier;
  key : Key;
  keydownIn : sendH;
  keydownOut : recvH;
  keyupIn : sendH;
  keyupOut : recvH;
}.

Definition set_platformHotkey (t : option Token) (hk : Hotkey) : Hotkey :=
  mkHotkey t (mods hk) (key hk) (keydownIn hk) (keydownOut hk) (keyupIn hk) (keyupOut hk).

Definition set_keydown (io : sendH * recvH) (hk : Hotkey) : Hotkey :=
  mkHotkey (platformHotkey hk) (mods hk) (key hk) io.1 io.2 (keyupIn hk) (keyupOut hk).

Definition set_keyup (io : sendH * recvH) (hk : Hotkey) : Hotkey :=
  mkHotkey (platformHotkey hk) (mods hk) (key hk) (keydownIn hk) (keydownOut hk) io.1 io.2.

(** Computations of the package: they read and write [Pkg] and may panic. *)
Definition M (A : Type) : Type := Pkg → outcome (A * Pkg).

Definition ret {A} (a : A) : M A := λ s, Done (a, s).

Definition bind {A B} (m : M A) (k : A → M B) : M B :=
  λ s, match m s with
       | Done (a, s') => k a s'
       | Blocked => Blocked
       | Panic msg => Panic msg
       end.

Notation "'let!' x ':=' m 'in' k" := (bind m (λ x, k))
  (at level 10, x pattern, m at level 100, k at level 200).
Notation "m ';;;' k" := (bind m (λ _, k))
  (at level 100, k at level 200, right associativity).

(** [newEventChan] (lines 124-157): two fresh channels and a fresh worker. *)
Definition newEventChan : M (sendH * recvH) :=
  λ s, let n := length (chans s) in
       Done ((InOf n, OutOf n), set_chans (λ cs, cs ++ [newChan]) s).

(** An action of [EventChan.step] on the channel a handle denotes. *)
Definition on_chan (id : nat) (a : action Event) (if_nil : outcome (option (obs Event) * Pkg))
    : M (option (obs Event)) :=
  λ s, match chans s !! id with
       | None => if_nil
       | Some c =>
           match step c a with
           | Done (c', o) => Done (o, set_chans (λ cs, <[id := c']> cs) s)
           | Blocked => Blocked
           | Panic msg => Panic msg
           end
       end.

(** [close(h)]. *)
Definition closeIn (h : sendH) : M unit :=
  on_chan (in_id h) Close (Panic close_of_nil) ;;; ret ().

(** [h <- e]; on a nil channel a send blocks forever. *)
Definition sendIn (h : sendH) (e : Event) : M unit :=
  on_chan (in_id h) (Send e) Blocked ;;; ret ().

(** [n] receives [<-h] in a row; on a nil channel a receive blocks forever. *)
Definition recvOut (n : nat) (h : recvH) : M (list (obs Event)) :=
  λ s, match chans s !! out_id h with
       | None => Blocked
       | Some c =>
           match consume n c with
           | Done (c', os) => Done (os, set_chans (λ cs, <[out_id h := c']> cs) s)
           | Blocked => Blocked
           | Panic msg => Panic msg
           end
       end.

(** Modelled from the spec: the call [backend.register(modifiers, key,
    onKeydown, onKeyup) -> token | error] made by [hk.register], which is
    defined in the platform files.  A token is stored in the Hotkey on
    success; on failure the Hotkey is left as it was given. *)
Definition bind_token (hk : Hotkey) : M (Hotkey * option Error) :=
  λ s, let '(w, r) := backend_register (mods hk) (key hk) (world s) in
       let s' := backend_called w (CallRegister (mods hk) (key hk)) s in
       match r with
       | inl t => Done ((set_platformHotkey (Some t) hk, None), s')
       | inr e => Done ((hk, Some e), s')
       end.

(** Modelled from the spec: [hk.register], defined in the platform files.
    Unregistered: the backend is asked for a token; on failure the state
    remains Unregistered and the error is returned.  Registered: the
    backend token is released and a fresh one is obtained; the channels
    are not touched.  (The specification is silent on a backend failure
    during re-registration; here a failed release returns its error and
    keeps the token.) *)
Definition register (hk : Hotkey) : M (Hotkey * option Error) :=
  match platformHotkey hk with
  | None => bind_token hk
  | Some t =>
      λ s, let '(w, r) := backend_unregister t (world s) in
           let s' := backend_called w (CallUnregister t) s in
           match r with
           | Some e => Done ((hk, Some e), s')
           | None => bind_token (set_platformHotkey None hk) s'
           end
  end.

(** Modelled from the spec: [hk.unregister], defined in the platform
    files: [backend.unregister(token) -> error | success].  On success the
    token is gone from the Hotkey; on failure it stays.  Without a token
    the backend is not called. *)
Definition unregister (hk : Hotkey) : M (Hotkey * option Error) :=
  match platformHotkey hk with
  | None => ret (hk, not_registered)
  | Some t =>
      λ s, let '(w, r) := backend_unregister t (world s) in
           let s' := backend_called w (CallUnregister t) s in
           match r with
           | Some e => Done ((hk, Some e), s')
           | None => Done ((set_platformHotkey None hk, None), s')
           end
  end.

(** Modelled from the spec: the callbacks bound by [hk.register]: on
    key-down an Event is sent on the key-down producer handle, on key-up
    on the key-up producer handle. *)
Definition onKeydown (hk : Hotkey) : M unit := sendIn (keydownIn hk) mkEvent.
Definition onKeyup (hk : Hotkey) : M unit := sendIn (keyupIn hk) mkEvent.

(** [New] (lines 64-85). *)
Definition New (ms : list Modifier) (k : Key) : M Hotkey :=
  let! kd := newEventChan in
  let! ku := newEventChan in
  ret (mkHotkey None ms k kd.1 kd.2 ku.1 ku.2).

(** The finalizer that [New] sets (lines 78-83); the result of
    [hk.unregister] is dropped. *)
Definition finalizer (hk : Hotkey) : M unit :=
  let! r := unregister hk in
  closeIn (keydownIn r.1) ;;;
  closeIn (keyupIn r.1).

(** [Register] (line 90). *)
Definition Register (hk : Hotkey) : M (Hotkey * option Error) := register hk.

(** [Keydown] and [Keyup] (lines 93, 96). *)
Definition Keydown (hk : Hotkey) : recvH := keydownOut hk.
Definition Keyup (hk : Hotkey) : recvH := keyupOut hk.

(** [Unregister] (lines 99-111). *)
Definition Unregister (hk : Hotkey) : M (Hotkey * option Error) :=
  let! r := unregister hk in
  match r.2 with
  | Some err => ret (r.1, Some err)
  | None =>
      closeIn (keydownIn r.1) ;;;
      closeIn (keyupIn r.1) ;;;
      let! kd := newEventChan in
      let! ku := newEventChan in
      ret (set_keyup ku (set_keydown kd r.1), None)
  end.

(** [String] (lines 114-120): [s += fmt.Sprintf("+%v", mod)] over [hk.mods]. *)
Definition String (hk : Hotkey) : string :=
  foldl (λ s m, s +:+ "+" +:+ fmtModifier m) (fmtKey (key hk)) (mods hk).

(** [var KeyMap = map[string]Key{...}] (lines 159-228). *)
Definition KeyMap : gmap string Key :=
  list_to_map [
    ("KeySpace", keyCode KeySpace); ("Key1", keyCode Key1);
    ("Key2", keyCode Key2); ("Key3", keyCode Key3); ("Key4", keyCode Key4);
    ("Key5", keyCode Key5); ("Key6", keyCode Key6); ("Key7", keyCode Key7);
    ("Key8", keyCode Key8); ("Key9", keyCode Key9); ("Key0", keyCode Key0);
    ("KeyA", keyCode KeyA); ("KeyB", keyCode KeyB); ("KeyC", keyCode KeyC);
    ("KeyD", keyCode KeyD); ("KeyE", keyCode KeyE); ("KeyF", keyCode KeyF);
    ("KeyG", keyCode KeyG); ("KeyH", keyCode KeyH); ("KeyI", keyCode KeyI);
    ("KeyJ", keyCode KeyJ); ("KeyK", keyCode KeyK); ("KeyL", keyCode KeyL);
    ("KeyM", keyCode KeyM); ("KeyN", keyCode KeyN); ("KeyO", keyCode KeyO);
    ("KeyP", keyCode KeyP); ("KeyQ", keyCode KeyQ); ("KeyR", keyCode KeyR);
    ("KeyS", keyCode KeyS); ("KeyT", keyCode KeyT); ("KeyU", keyCode KeyU);
    ("KeyV", keyCode KeyV); ("KeyW", keyCode KeyW); ("KeyX", keyCode KeyX);
    ("KeyY", keyCode KeyY); ("KeyZ", keyCode KeyZ);
    ("KeyReturn", keyCode KeyReturn); ("KeyEscape", keyCode KeyEscape);
    ("KeyDelete", keyCode KeyDelete); ("KeyTab", keyCode KeyTab);
    ("KeyLeft", keyCode KeyLeft); ("KeyRight", keyCode KeyRight);
    ("KeyUp", keyCode KeyUp); ("KeyDown", keyCode KeyDown);
    ("KeyF1", keyCode KeyF1); ("KeyF2", keyCode KeyF2);
    ("KeyF3", keyCode KeyF3); ("KeyF4", keyCode KeyF4);
    ("KeyF5", keyCode KeyF5); ("KeyF6", keyCode KeyF6);
    ("KeyF7", keyCode KeyF7); ("KeyF8", keyCode KeyF8);
    ("KeyF9", keyCode KeyF9); ("KeyF10", keyCode KeyF10);
    ("KeyF11", keyCode KeyF11); ("KeyF12", keyCode KeyF12);
    ("KeyF13", keyCode KeyF13); ("KeyF14", keyCode KeyF14);
    ("KeyF15", keyCode KeyF15); ("KeyF16", keyCode KeyF16);
    ("KeyF17", keyCode KeyF17); ("KeyF18", keyCode KeyF18);
    ("KeyF19", keyCode KeyF19); ("KeyF20", keyCode KeyF20) ].

(** The keys that [TestKeyMap] looks up. *)
Definition keyMapKeys : list string := [
    "KeySpace"; "Key1"; "Key2"; "Key3"; "Key4"; "Key5"; "Key6"; "Key7";
    "Key8"; "Key9"; "Key0"; "KeyA"; "KeyB"; "KeyC"; "KeyD"; "KeyE"; "KeyF";
    "KeyG"; "KeyH"; "KeyI"; "KeyJ"; "KeyK"; "KeyL"; "KeyM"; "KeyN"; "KeyO";
    "KeyP"; "KeyQ"; "KeyR"; "KeyS"; "KeyT"; "KeyU"; "KeyV"; "KeyW"; "KeyX";
    "KeyY"; "KeyZ"; "KeyReturn"; "KeyEscape"; "KeyDelete"; "KeyTab";
    "KeyLeft"; "KeyRight"; "KeyUp"; "KeyDown"; "KeyF1"; "KeyF2"; "KeyF3";
    "KeyF4"; "KeyF5"; "KeyF6"; "KeyF7"; "KeyF8"; "KeyF9"; "KeyF10";
    "KeyF11"; "KeyF12"; "KeyF13"; "KeyF14"; "KeyF15"; "KeyF16"; "KeyF17";
    "KeyF18"; "KeyF19"; "KeyF20" ].

(** The package state after initialisation, over a backend state. *)
Definition initPkg (w : World) : Pkg := mkPkg [] KeyMap w [].

(** A lookup [KeyMap[name]] in the current state. *)
Definition lookupKey (name : string) (s : Pkg) : option Key := keyMap s !! name.

(** *** Predicates on Hotkeys and package states *)

(** The four channel fields of two Hotkey values agree. *)
Definition same_channels (hk hk' : Hotkey) : Prop :=
  keydownIn hk' = keydownIn hk ∧ keydownOut hk' = keydownOut hk ∧
  keyupIn hk' = keyupIn hk ∧ keyupOut hk' = keyupOut hk.

(** Each consumer handle of a Hotkey names the [out] of the event channel
    whose [in] is the matching producer handle, as [New] and [Unregister]
    set them. *)
Definition paired (hk : Hotkey) : Prop :=
  keydownOut hk = OutOf (in_id (keydownIn hk)) ∧
  keyupOut hk = OutOf (in_id (keyupIn hk)).

(** The two event channels of a Hotkey are allocated, different and still
    open on the producer side. *)
Definition live (hk : Hotkey) (s : Pkg) : Prop :=
  in_id (keydownIn hk) ≠ in_id (keyupIn hk) ∧
  ∃ cd cu, chans s !! in_id (keydownIn hk) = Some cd ∧
           chans s !! in_id (keyupIn hk) = Some cu ∧
           in_closed cd = false ∧ in_closed cu = false.

(** The [in] of the channel a producer handle names is closed. *)
Definition closed_in (h : sendH) (s : Pkg) : Prop :=
  ∃ c, chans s !! in_id h = Some c ∧ in_closed c = true.

(** The backend calls that releasing the token of a Hotkey makes. *)
Definition release_calls (hk : Hotkey) : list Call :=
  match platformHotkey hk with
  | Some t => [CallUnregister t]
  | None => []
  end.

(** A computation that leaves the variable [KeyMap] as it found it. *)
Definition keeps_keyMap {A} (m : M A) : Prop :=
  ∀ s a s', m s = Done (a, s') → keyMap s' = keyMap s.

(** *** Programs over the package

    A client program is a sequence of calls into the package.  Hotkeys
    live in a heap and are named by their position in it, as [*Hotkey]
    pointers are; a cell is empty once its Hotkey has been collected. *)
Inductive Op : Type :=
| ONew (ms : list Modifier) (k : Key)
| ORegister (p : nat)
| OUnregister (p : nat)
| OKeydown (p : nat)
| OKeyup (p : nat)
| OString (p : nat)
| ONewEventChan
| OFinalize (p : nat).

Inductive Ret : Type :=
| RPtr (p : nat)
| RErr (e : option Error)
| RRecv (h : recvH)
| RStr (s : string)
| RChans (io : sendH * recvH)
| RUnit.

(** The text of Go's run-time panic on a nil pointer dereference. *)
Definition nil_deref : string :=
  "runtime error: invalid memory address or nil pointer dereference".

Definition with_hotkey {A} (heap : list (option Hotkey)) (p : nat)
    (k : Hotkey → M A) : M A :=
  match heap !! p with
  | Some (Some hk) => k hk
  | Some None | None => λ _, Panic nil_deref
  end.

(** A finalizer runs when its Hotkey is collected: the heap cell is gone
    afterwards. *)
Definition exec (op : Op) (heap : list (option Hotkey)) : M (Ret * list (option Hotkey)) :=
  match op with
  | ONew ms k => let! hk := New ms k in ret (RPtr (length heap), heap ++ [Some hk])
  | ORegister p =>
      with_hotkey heap p
        (λ hk, let! r := Register hk in ret (RErr r.2, <[p := Some r.1]> heap))
  | OUnregister p =>
      with_hotkey heap p
        (λ hk, let! r := Unregister hk in ret (RErr r.2, <[p := Some r.1]> heap))
  | OKeydown p => with_hotkey heap p (λ hk, ret (RRecv (Keydown hk), heap))
  | OKeyup p => with_hotkey heap p (λ hk, ret (RRecv (Keyup hk), heap))
  | OString p => with_hotkey heap p (λ hk, ret (RStr (String hk), heap))
  | ONewEventChan => let! io := newEventChan in ret (RChans io, heap)
  | OFinalize p =>
      with_hotkey heap p (λ hk, finalizer hk ;;; ret (RUnit, <[p := None]> heap))
  end.

Fixpoint execs (ops : list Op) (heap : list (option Hotkey))
    : M (list Ret * list (option Hotkey)) :=
  match ops with
  | [] => ret ([], heap)
  | op :: ops' =>
      let! r := exec op heap in
      let! rs := execs ops' r.2 in
      ret (r.1 :: rs.1, rs.2)
  end.

(** *** Predicates on programs *)

(** The event channel [n] is one of the two a Hotkey holds. *)
Definition owns (hk : Hotkey) (n : nat) : Prop :=
  n = in_id (keydownIn hk) ∨ n = in_id (keyupIn hk).

(** Every Hotkey of the heap has two open channels of its own, and no two
    Hotkeys hold the same channel. *)
Definition heap_ok (heap : list (option Hotkey)) (s : Pkg) : Prop :=
  (∀ p hk, heap !! p = Some (Some hk) → live hk s) ∧
  (∀ p q hk hk' n, p ≠ q →
     heap !! p = Some (Some hk) → heap !! q = Some (Some hk') →
     owns hk n → ¬ owns hk' n).

(** Between two states only channels picked out by [X] have changed, and
    none has gone. *)
Definition only_touches (X : nat → Prop) (s s' : Pkg) : Prop :=
  length (chans s) ≤ length (chans s') ∧
  ∀ n, n < length (chans s) → ¬ X n → chans s' !! n = chans s !! n.

(** Every channel of [s] is still there in [s'], with its worker where it
    was, and closed on the producer side if it was. *)
Definition chans_kept (s s' : Pkg) : Prop :=
  ∀ n c, chans s !! n = Some c →
    ∃ c', chans s' !! n = Some c' ∧ wk c' = wk c ∧
          (in_closed c = true → in_closed c' = true).

Definition keeps_chans {A} (m : M A) : Prop :=
  ∀ s a s', m s = Done (a, s') → chans_kept s s'.

(** Every Hotkey of [heap] is, in [heap'], either collected or there with
    the modifiers and the key it had; a collected one stays collected. *)
Definition heap_kept (heap heap' : list (option Hotkey)) : Prop :=
  ∀ p, match heap !! p with
       | Some (Some hk) =>
           heap' !! p = Some None ∨
           ∃ hk', heap' !! p = Some (Some hk') ∧
                  mods hk' = mods hk ∧ key hk' = key hk
       | Some None => heap' !! p = Some None
       | None => True
       end.

(** [n] sends [h <- Event{}] in a row. *)
Fixpoint sendsIn (n : nat) (h : sendH) : M unit :=
  match n with
  | 0 => ret ()
  | S n' => sendIn h mkEvent ;;; sendsIn n' h
  end.

End Package.
End Hotkey.

(** ** A test double for the platform

    A backend that binds a combination to at most one token at a time and
    refuses a combination that is bound; keys are numbered in the order of
    the [KeyMap] literal and printed in decimal. *)

Module Stub.

Inductive StubModifier : Type := ModCtrl | ModShift | ModAlt.

Global Instance StubModifier_eq_dec : EqDecision StubModifier.
Proof. solve_decision. Defined.

Inductive StubError : Type := AlreadyBound | UnknownToken | NotRegistered.

Definition key_index (k : KeyName) : nat :=
  match k with
  | KeySpace => 0 | Key1 => 1 | Key2 => 2 | Key3 => 3 | Key4 => 4 | Key5 => 5
  | Key6 => 6 | Key7 => 7 | Key8 => 8 | Key9 => 9 | Key0 => 10 | KeyA => 11
  | KeyB => 12 | KeyC => 13 | KeyD => 14 | KeyE => 15 | KeyF => 16
  | KeyG => 17 | KeyH => 18 | KeyI => 19 | KeyJ => 20 | KeyK => 21
  | KeyL => 22 | KeyM => 23 | KeyN => 24 | KeyO => 25 | KeyP => 26
  | KeyQ => 27 | KeyR => 28 | KeyS => 29 | KeyT => 30 | KeyU => 31
  | KeyV => 32 | KeyW => 33 | KeyX => 34 | KeyY => 35 | KeyZ => 36
  | KeyReturn => 37 | KeyEscape => 38 | KeyDelete => 39 | KeyTab => 40
  | KeyLeft => 41 | KeyRight => 42 | KeyUp => 43 | KeyDown => 44
  | KeyF1 => 45 | KeyF2 => 46 | KeyF3 => 47 | KeyF4 => 48 | KeyF5 => 49
  | KeyF6 => 50 | KeyF7 => 51 | KeyF8 => 52 | KeyF9 => 53 | KeyF10 => 54
  | KeyF11 => 55 | KeyF12 => 56 | KeyF13 => 57 | KeyF14 => 58 | KeyF15 => 59
  | KeyF16 => 60 | KeyF17 => 61 | KeyF18 => 62 | KeyF19 => 63 | KeyF20 => 64
  end.

Definition fmtStubModifier (m : StubModifier) : string :=
  match m with ModCtrl => "ctrl" | ModShift => "shift" | ModAlt => "alt" end.

Record StubWorld : Type := mkStubWorld {
  bound : list (nat * (list StubModifier * nat));
  next_token : nat;
}.

Definition stub_register (ms : list StubModifier) (k : nat) (w : StubWorld)
    : StubWorld * (nat + StubError) :=
  if bool_decide ((ms, k) ∈ (snd <$> bound w)) then (w, inr AlreadyBound)
  else (mkStubWorld ((next_token w, (ms, k)) :: bound w) (S (next_token w)),
        inl (next_token w)).

Definition stub_unregister (t : nat) (w : StubWorld) : StubWorld * option StubError :=
  if bool_decide (t ∈ (fst <$> bound w)) then
    (mkStubWorld (filter (λ b, b.1 ≠ t) (bound w)) (next_token w), None)
  else (w, Some UnknownToken).

Definition stub : Platform := {|
  Key := nat;
  Modifier := StubModifier;
  keyCode := key_index;
  fmtKey := pretty;
  fmtModifier := fmtStubModifier;
  Token := nat;
  World := StubWorld;
  Error := StubError;
  backend_register := stub_register;
  backend_unregister := stub_unregister;
  not_registered := Some NotRegistered;
|}.

Definition world0 : StubWorld := mkStubWorld [] 0.

(** *** Hotkeys and package states over the test double *)

Import EventChan Hotkey.
#[local] Existing Instance stub.

Definition combo : list StubModifier := [ModCtrl; ModShift].
Definition keyS : nat := key_index KeyS.

(** A Hotkey for Ctrl+Shift+S, registered, after two key-down firings that
    nobody has read yet. *)
Definition hk0 : Hotkey :=
  mkHotkey (Some 0) combo keyS (InOf 0) (OutOf 0) (InOf 1) (OutOf 1).

Definition s0 : Pkg :=
  mkPkg [Chan false (AtSelect mkEvent [mkEvent]); newChan] KeyMap
        (mkStubWorld [(0, (combo, keyS))] 1)
        [CallRegister combo keyS].

(** The same Hotkey after [Unregister]. *)
Definition hk1 : Hotkey :=
  mkHotkey None combo keyS (InOf 2) (OutOf 2) (InOf 3) (OutOf 3).

Definition s1 : Pkg :=
  mkPkg [Chan true (AtSelect mkEvent [mkEvent]); Chan true AtRecvIn; newChan; newChan]
        KeyMap (mkStubWorld [] 1)
        [CallRegister combo keyS; CallUnregister 0].

(** A second Hotkey for the combination that [hk0] holds. *)
Definition hkB : Hotkey :=
  mkHotkey None combo keyS (InOf 2) (OutOf 2) (InOf 3) (OutOf 3).

Definition sB : Pkg :=
  mkPkg (chans s0 ++ [newChan; newChan]) KeyMap (world s0) (calls s0).

(** A Hotkey whose token the backend no longer knows. *)
Definition hk_stale : Hotkey :=
  mkHotkey (Some 7) combo keyS (InOf 0) (OutOf 0) (InOf 1) (OutOf 1).

Definition s_stale : Pkg :=
  mkPkg (chans s0) KeyMap (world s0) (calls s0 ++ [CallUnregister 7]).

Definition demo_ops : list Op :=
  [ONew combo keyS; ORegister 0; OKeydown 0; OString 0;
   ONewEventChan; OUnregister 0; ORegister 0; OFinalize 0].

Definition demo_rets : list Ret :=
  [RPtr 0; RErr None; RRecv (OutOf 0); RStr "29+ctrl+shift";
   RChans (InOf 2, OutOf 2); RErr None; RErr None; RUnit].

Definition demo_end (km : gmap string nat) : Pkg :=
  mkPkg [Chan true AtRecvIn; Chan true AtRecvIn; newChan;
         Chan true AtRecvIn; Chan true AtRecvIn]
        km (mkStubWorld [] 2)
        [CallRegister combo keyS; CallUnregister 0;
         CallRegister combo keyS; CallUnregister 1].

(** A program on the heap that holds [hk0]: unregister it, allocate a
    channel, register it again, collect it. *)
Definition heap0 : list (option Hotkey) := [Some hk0].

Definition s0_over (km : gmap string nat) : Pkg :=
  mkPkg (chans s0) km (world s0) (calls s0).

Definition later_ops : list Op :=
  [OUnregister 0; ONewEventChan; ORegister 0; OFinalize 0].

Definition later_rets : list Ret :=
  [RErr None; RChans (InOf 4, OutOf 4); RErr None; RUnit].

Definition later_end (km : gmap string nat) : Pkg :=
  mkPkg [Chan true (AtSelect mkEvent [mkEvent]); Chan true AtRecvIn;
         Chan true AtRecvIn; Chan true AtRecvIn; newChan]
        km (mkStubWorld [] 2)
        [CallRegister combo keyS; CallUnregister 0;
         CallRegister combo keyS; CallUnregister 1].

(** Two steps of that program, with the Hotkey still in the heap. *)
Definition hk2 : Hotkey :=
  mkHotkey (Some 1) combo keyS (InOf 2) (OutOf 2) (InOf 3) (OutOf 3).

Definition mid_ops : list Op := [OUnregister 0; ORegister 0].

Definition mid_end (km : gmap string nat) : Pkg :=
  mkPkg [Chan true (AtSelect mkEvent [mkEvent]); Chan true AtRecvIn;
         newChan; newChan]
        km (mkStubWorld [(1, (combo, keyS))] 2)
        [CallRegister combo keyS; CallUnregister 0; CallRegister combo keyS].

End Stub.

(** * Two facts about string concatenation *)



(** * Properties of the event relay *)

Module EventChanProps.
Import EventChan.
Section Relay.
Context {E : Type}.
Implicit Types (c : chan E) (a : action E) (q es : list E) (os : list (obs E)).

Lemma pending_loop_head q : pending (loop_head q) = q.
Proof. by destruct q. Qed.

Lemma pending_drain_head q : pending (drain_head q) = q.
Proof. by destruct q. Qed.

(** Every step conserves the events: what was pending plus what is sent
    equals what is delivered plus what is pending afterwards. *)
Lemma step_conserves c a c' o :
  step c a = Done (c', o) →
  received o ++ pending (wk c') = pending (wk c) ++ sent a.
Proof.
  destruct c as [b w], a as [e| | |]; simpl; intros Hs.
  - destruct b; [done|].
    destruct w; simplify_eq/=; by rewrite ?pending_loop_head.
  - destruct b; simplify_eq/=. by rewrite app_nil_r.
  - destruct b; [|done]. destruct w; simplify_eq/=; by rewrite ?app_nil_r.
  - destruct w; simplify_eq/=;
      by rewrite ?pending_loop_head, ?pending_drain_head, ?app_nil_r.
Qed.

Lemma run_cons c a sch :
  run c (a :: sch) =
    match step c a with
    | Done (c', o) =>
        match run c' sch with
        | Done (c'', os) => Done (c'', from_option (λ x, [x]) [] o ++ os)
        | Blocked => Blocked
        | Panic m => Panic m
        end
    | Blocked => Blocked
    | Panic m => Panic m
    end.
Proof. done. Qed.

Lemma run_cons_inv c a sch c'' os :
  run c (a :: sch) = Done (c'', os) →
  ∃ c' o os', step c a = Done (c', o) ∧ run c' sch = Done (c'', os') ∧
              os = from_option (λ x, [x]) [] o ++ os'.
Proof.
  rewrite run_cons. destruct (step c a) as [[c' o]| |] eqn:Hs; [|done..].
  destruct (run c' sch) as [[c1 os']| |] eqn:Hr; [|done..].
  intros [= <- <-]. by exists c', o, os'.
Qed.

Lemma events_obs (o : option (obs E)) os :
  events (from_option (λ x, [x]) [] o ++ os) = received o ++ events os.
Proof. by destruct o as [[e|]|]. Qed.

Lemma run_conserves sch : ∀ c c' os,
  run c sch = Done (c', os) →
  events os ++ pending (wk c') = pending (wk c) ++ sends sch.
Proof.
  induction sch as [|a sch IH]; intros c c' os Hr.
  - simpl in Hr. simplify_eq. by rewrite app_nil_r.
  - apply run_cons_inv in Hr as (c1 & o & os' & Hs & Hr & ->).
    apply step_conserves in Hs. apply IH in Hr.
    rewrite events_obs. unfold sends in *. rewrite bind_cons.
    rewrite <-(assoc_L (++)), Hr, !(assoc_L (++)). by rewrite Hs.
Qed.

Lemma run_app sch1 : ∀ sch2 c,
  run c (sch1 ++ sch2) =
    match run c sch1 with
    | Done (c', os1) =>
        match run c' sch2 with
        | Done (c'', os2) => Done (c'', os1 ++ os2)
        | Blocked => Blocked
        | Panic m => Panic m
        end
    | Blocked => Blocked
    | Panic m => Panic m
    end.
Proof.
  induction sch1 as [|a sch1 IH]; intros sch2 c.
  - simpl. by destruct (run c sch2) as [[??]| |].
  - rewrite <-app_comm_cons, !run_cons.
    destruct (step c a) as [[c' o]| |]; [|done..].
    rewrite IH. destruct (run c' sch1) as [[c1 os1]| |]; [|done..].
    destruct (run c1 sch2) as [[c2 os2]| |]; [|done..].
    by rewrite (assoc_L (++)).
Qed.

(** The worker stays at a receive on [in] for as long as [in] is open. *)
Lemma wf_newChan : wf (@newChan E).
Proof. intros _. by left. Qed.

Lemma wf_loop_head b q : wf (Chan b (loop_head q)).
Proof. intros _. destruct q; simpl; eauto. Qed.

Lemma step_wf c a c' o : wf c → step c a = Done (c', o) → wf c'.
Proof.
  destruct c as [b w], a as [e| | |]; simpl; intros Hwf Hs.
  - destruct b; [done|]. destruct w; simplify_eq/=; intros _; simpl; eauto.
  - destruct b; simplify_eq/=. by intros ?.
  - destruct b; [|done]. destruct w; simplify_eq/=; by intros ?.
  - destruct w as [|hd tl|hd tl|]; simplify_eq/=.
    + intros _. destruct tl; simpl; eauto.
    + intros Hb. simpl in Hb. subst b. by destruct (Hwf eq_refl) as [?|(?&?&?)].
    + done.
Qed.

Lemma run_wf sch : ∀ c c' os, wf c → run c sch = Done (c', os) → wf c'.
Proof.
  induction sch as [|a sch IH]; intros c c' os Hwf Hr.
  - simpl in Hr. by simplify_eq.
  - apply run_cons_inv in Hr as (c1 & o & os' & Hs & Hr & ->).
    eauto using step_wf.
Qed.

(** *** The consumer alone *)

Lemma consume_S n c :
  consume (S n) c =
    match receive c with
    | Done (c', o) =>
        match consume n c' with
        | Done (c'', os) => Done (c'', o :: os)
        | Blocked => Blocked
        | Panic m => Panic m
        end
    | Blocked => Blocked
    | Panic m => Panic m
    end.
Proof. done. Qed.

Lemma consume_app n : ∀ m c,
  consume (n + m) c =
    match consume n c with
    | Done (c', os1) =>
        match consume m c' with
        | Done (c'', os2) => Done (c'', os1 ++ os2)
        | Blocked => Blocked
        | Panic msg => Panic msg
        end
    | Blocked => Blocked
    | Panic msg => Panic msg
    end.
Proof.
  induction n as [|n IH]; intros m c.
  - simpl. by destruct (consume m c) as [[??]| |].
  - rewrite Nat.add_succ_l, !consume_S.
    destruct (receive c) as [[c' o]| |]; [|done..].
    rewrite IH. destruct (consume n c') as [[c1 os1]| |]; [|done..].
    by destruct (consume m c1) as [[c2 os2]| |].
Qed.

(** While in its [select] the worker hands over the whole of [q], oldest
    first, and is back at its receive on [in]. *)
Lemma consume_loop q b :
  consume (length q) (Chan b (loop_head q)) = Done (Chan b AtRecvIn, Got <$> q).
Proof.
  induction q as [|e q IH]; [done|].
  change (length (e :: q)) with (S (length q)).
  rewrite consume_S. change (receive _) with (Done (Chan b (loop_head q), Got e)).
  cbv beta iota. by rewrite IH.
Qed.

(** In its final loop the worker hands over the whole of [q], oldest
    first, and has then closed [out]. *)
Lemma consume_drain q b :
  consume (length q) (Chan b (drain_head q)) = Done (Chan b Exited, Got <$> q).
Proof.
  induction q as [|e q IH]; [done|].
  change (length (e :: q)) with (S (length q)).
  rewrite consume_S. change (receive _) with (Done (Chan b (drain_head q), Got e)).
  cbv beta iota. by rewrite IH.
Qed.

(** Whatever is pending can be received, in order, without any further
    step of the producer. *)
Lemma consume_pending c :
  ∃ c', consume (length (pending (wk c))) c = Done (c', Got <$> pending (wk c)) ∧
        pending (wk c') = [] ∧ in_closed c' = in_closed c.
Proof.
  destruct c as [b [|hd tl|hd tl|]].
  - by eexists.
  - exists (Chan b AtRecvIn). split; [|done]. apply (consume_loop (hd :: tl)).
  - exists (Chan b Exited). split; [|done]. apply (consume_drain (hd :: tl)).
  - by eexists.
Qed.

(** Once [in] is closed, the consumer receives what is pending and then
    the closed-indication. *)
Lemma consume_closed c :
  in_closed c = true →
  consume (S (length (pending (wk c)))) c
  = Done (Chan true Exited, (Got <$> pending (wk c)) ++ [GotClosed]).
Proof.
  destruct c as [b w]. intros Hb. simpl in Hb. subst b.
  change (wk (Chan true w)) with w.
  replace (S (length (pending w))) with (length (pending w) + 1) by lia.
  rewrite consume_app. destruct w as [|hd tl|hd tl|].
  - done.
  - rewrite (consume_loop (hd :: tl)). done.
  - rewrite (consume_drain (hd :: tl)). done.
  - done.
Qed.

(** Once [in] is closed, no execution shows the consumer anything but the
    pending events in order, followed by closed-indications. *)
Lemma closed_run_prefix sch : ∀ c c' os,
  in_closed c = true →
  run c sch = Done (c', os) →
  ∃ k, os `prefix_of` (Got <$> pending (wk c)) ++ replicate k GotClosed.
Proof.
  induction sch as [|a sch IH]; intros c c' os Hc Hr.
  - simpl in Hr. simplify_eq. exists 0. apply prefix_nil.
  - apply run_cons_inv in Hr as (c1 & o & os' & Hs & Hr & ->).
    destruct c as [b w]; simpl in Hc; subst b.
    destruct a as [e| | |]; simpl in Hs; [done|done|..].
    + destruct w as [|hd tl|hd tl|]; simplify_eq/=;
        by apply IH in Hr.
    + destruct w as [|hd tl|hd tl|]; simplify_eq/=.
      * apply IH in Hr as [k Hk]; [|done]. simpl in Hk. rewrite pending_loop_head in Hk.
        exists k. by apply prefix_cons.
      * apply IH in Hr as [k Hk]; [|done]. simpl in Hk. rewrite pending_drain_head in Hk.
        exists k. by apply prefix_cons.
      * apply IH in Hr as [k Hk]; [|done]. simpl in Hk.
        exists (S k). by apply prefix_cons.
Qed.

(** [N] sends and a close, with nobody receiving. *)
Lemma run_sends es : ∀ q,
  run (Chan false (loop_head q)) (Send <$> es)
  = Done (Chan false (loop_head (q ++ es)), []).
Proof.
  induction es as [|e es IH]; intros q.
  - by rewrite app_nil_r.
  - rewrite fmap_cons, run_cons.
    replace (step (Chan false (loop_head q)) (Send e))
      with (Done (Chan false (loop_head (q ++ [e])), @None (obs E))).
    + rewrite IH. by rewrite <-(assoc_L (++)).
    + destruct q; simpl; by rewrite ?pending_loop_head.
Qed.

(** The final loop of the worker, met by a consumer that receives once
    per event: the whole of [q] is delivered, oldest first, and the worker
    has then closed [out]. *)
Lemma run_drain q b :
  run (Chan b (drain_head q)) (replicate (length q) Recv)
  = Done (Chan b Exited, Got <$> q).
Proof.
  induction q as [|e q IH]; [done|].
  change (replicate (length (e :: q)) Recv)
    with (@Recv E :: replicate (length q) Recv).
  rewrite run_cons.
  change (step (Chan b (drain_head (e :: q))) Recv)
    with (Done (Chan b (drain_head q), Some (Got e))).
  cbv beta iota. by rewrite IH.
Qed.

(** Once [in] is closed it stays closed, and nothing more is sent. *)
Lemma closed_no_sends sch : ∀ c c' os,
  in_closed c = true →
  run c sch = Done (c', os) →
  in_closed c' = true ∧ sends sch = [].
Proof.
  induction sch as [|a sch IH]; intros c c' os Hc Hr.
  - simpl in Hr. by simplify_eq.
  - apply run_cons_inv in Hr as (c1 & o & os' & Hs & Hr & ->).
    destruct c as [b w]; simpl in Hc; subst b.
    destruct a as [e| | |]; simpl in Hs; [done|done|..].
    + destruct w; simplify_eq/=; by apply IH in Hr.
    + destruct w; simplify_eq/=; by apply IH in Hr.
Qed.

(** The worker notices the close while nobody receives, which takes it
    from its [select] into its final loop; the consumer then receives
    once per event and once more. *)
Lemma run_seen_close es :
  run (Chan true (loop_head es)) (SeeClose :: replicate (S (length es)) Recv)
  = Done (Chan true Exited, (Got <$> es) ++ [GotClosed]).
Proof.
  rewrite run_cons.
  replace (step (Chan true (loop_head es)) SeeClose)
    with (Done (Chan true (drain_head es), @None (obs E))) by by destruct es.
  cbv beta iota.
  change (replicate (S (length es)) (@Recv E))
    with (@Recv E :: replicate (length es) Recv).
  rewrite replicate_cons_app, run_app, run_drain. done.
Qed.

(** C1.  After [N] sends and a close on a fresh event channel (any [N],
    also 0), with the consumer not yet receiving, all [N] events are held
    in order.  The worker, with nobody to receive, notices the close and
    enters its final loop (lines 147-150, or lines 132-134 when it holds
    nothing); the consumer's [N + 1] receives from there return exactly
    the [N] events in the order sent and then the closed-indication, and
    the worker has returned.  The same holds if the consumer's first
    receive comes before the worker has noticed the close, and from
    wherever any execution after the close stands: what the consumer has
    seen is a prefix of the [N] events followed by closed-indications
    only, and its further receives return the events still missing, in
    order, and then the closed-indication. *)
Theorem send_close_then_receive (es : list E) :
  ∃ c, run newChan ((Send <$> es) ++ [Close]) = Done (c, []) ∧
       in_closed c = true ∧
       pending (wk c) = es ∧
       consume (S (length es)) c
       = Done (Chan true Exited, (Got <$> es) ++ [GotClosed]) ∧
       (∀ sch c' os, run c sch = Done (c', os) →
         ∃ k, os `prefix_of` (Got <$> es) ++ replicate k GotClosed) ∧
       run c (SeeClose :: replicate (S (length es)) Recv)
       = Done (Chan true Exited, (Got <$> es) ++ [GotClosed]) ∧
       run newChan ((Send <$> es) ++ [Close; SeeClose]
                    ++ replicate (S (length es)) Recv)
       = Done (Chan true Exited, (Got <$> es) ++ [GotClosed]) ∧
       (∀ sch c' os, run c sch = Done (c', os) →
         ∃ rest, events os ++ rest = es ∧
                 consume (S (length rest)) c'
                 = Done (Chan true Exited, (Got <$> rest) ++ [GotClosed])).
Proof.
  exists (Chan true (loop_head es)).
  assert (Hrun : run newChan ((Send <$> es) ++ [Close])
                 = Done (Chan true (loop_head es), [])).
  { rewrite run_app. change (@newChan E) with (Chan false (@loop_head E [])).
    rewrite run_sends. done. }
  split_and!; [done|done|apply pending_loop_head|..].
  - rewrite <-(pending_loop_head es) at 1 3.
    by apply (consume_closed (Chan true (loop_head es))).
  - intros sch c' os Hr. apply closed_run_prefix in Hr; [|done].
    simpl in Hr. by rewrite pending_loop_head in Hr.
  - apply run_seen_close.
  - change ((Send <$> es) ++ [Close; SeeClose] ++ replicate (S (length es)) Recv)
      with ((Send <$> es) ++ [Close]
            ++ (SeeClose :: replicate (S (length es)) Recv)).
    rewrite (assoc_L (++)), run_app, Hrun. by rewrite run_seen_close.
  - intros sch c' os Hr. exists (pending (wk c')).
    destruct (closed_no_sends sch (Chan true (loop_head es)) c' os eq_refl Hr)
      as [Hc' Hnone].
    split.
    + apply run_conserves in Hr. simpl in Hr.
      by rewrite pending_loop_head, Hnone, app_nil_r in Hr.
    + by apply consume_closed.
Qed.

(** C2.  In every execution of an event channel, whatever the interleaving
    of sends, receives, the close and the worker's own steps: the events
    the consumer has received so far, followed by the events still held
    by the worker, are exactly the events sent, in the order sent; so the
    consumer has seen a prefix of what was sent, and the rest can be
    received, in order, from where the execution stands. *)
Theorem relay_is_fifo (sch : list (action E)) (c : chan E) (os : list (obs E)) :
  run newChan sch = Done (c, os) →
  sends sch = events os ++ pending (wk c) ∧
  events os `prefix_of` sends sch ∧
  ∃ c', consume (length (pending (wk c))) c = Done (c', Got <$> pending (wk c)).
Proof.
  intros Hr. apply run_conserves in Hr. simpl in Hr.
  split_and!.
  - done.
  - rewrite <-Hr. by apply prefix_app_r.
  - destruct (consume_pending c) as (c' & Hc & _). eauto.
Qed.

(** C3.  In every state an event channel can reach while its producer
    side is open, whatever the worker holds and whatever the consumer has
    or has not received, a send is a step the worker takes at once: it
    needs no receive by the consumer, and the event joins the end of the
    queue.  So any number of sends in a row goes through with the
    consumer taking no step at all. *)
Theorem send_never_waits (sch : list (action E)) (c : chan E)
    (os : list (obs E)) :
  run newChan sch = Done (c, os) →
  in_closed c = false →
  (∀ e, ∃ c', step c (Send e) = Done (c', None) ∧
              in_closed c' = false ∧
              pending (wk c') = pending (wk c) ++ [e]) ∧
  (∀ es, ∃ c', run c (Send <$> es) = Done (c', []) ∧
               in_closed c' = false ∧
               pending (wk c') = pending (wk c) ++ es).
Proof.
  intros Hr Hopen. apply run_wf in Hr; [|apply wf_newChan].
  destruct c as [b w]. simpl in Hopen. subst b.
  assert (Hw : w = loop_head (pending w)).
  { by destruct (Hr eq_refl) as [Hw|(hd & tl & Hw)]; simpl in Hw; subst w. }
  split.
  - intros e. exists (Chan false (loop_head (pending w ++ [e]))).
    split_and!; [|done|by cbn [wk]; rewrite pending_loop_head].
    rewrite Hw at 1. destruct (pending w); simpl; by rewrite ?pending_loop_head.
  - intros es. exists (Chan false (loop_head (pending w ++ es))).
    split_and!; [|done|by cbn [wk]; rewrite pending_loop_head].
    rewrite Hw at 1. apply run_sends.
Qed.

End Relay.
End EventChanProps.

(** * Properties of the Hotkey life cycle *)

Module HotkeyProps.
Import EventChan EventChanProps Hotkey.
Section Lifecycle.
Context `{P : Platform}.
Implicit Types (hk : Hotkey) (s : Pkg) (h : sendH).

Lemma bind_Done {A B} (m : M A) (k : A → M B) s b s' :
  bind m k s = Done (b, s') ↔ ∃ a s1, m s = Done (a, s1) ∧ k a s1 = Done (b, s').
Proof.
  unfold bind. split.
  - destruct (m s) as [[a s1]| |]; [|done..]. eauto.
  - by intros (a & s1 & -> & ?).
Qed.

Lemma closeIn_Done h s s' :
  closeIn h s = Done ((), s') ↔
  ∃ c, chans s !! in_id h = Some c ∧ in_closed c = false ∧
       s' = set_chans (λ cs, <[in_id h := Chan true (wk c)]> cs) s.
Proof.
  unfold closeIn, bind, on_chan, ret. split.
  - destruct (chans s !! in_id h) as [[b w]|]; [|done]. simpl.
    destruct b; [done|]. intros [= <-]. by eexists.
  - intros ([b w] & -> & Hb & ->). simpl in *. by subst b.
Qed.

(** [hk.unregister] always returns; it changes the token and the backend
    only. *)
Lemma unregister_frame hk s :
  ∃ r w, unregister hk s
         = Done ((set_platformHotkey (if r is None then None else platformHotkey hk) hk, r),
                 mkPkg (chans s) (keyMap s) w (calls s ++ release_calls hk)).
Proof.
  unfold unregister, release_calls. destruct hk as [[t|] ms k di do ui uo]; simpl.
  - destruct (backend_unregister t (world s)) as [w [e|]].
    + by exists (Some e), w.
    + by exists None, w.
  - exists not_registered, (world s). unfold ret. rewrite app_nil_r.
    destruct s. by destruct not_registered.
Qed.

(** [hk.register] always returns; it changes the token and the backend
    only. *)
Lemma register_frame hk s hk' r s' :
  register hk s = Done ((hk', r), s') →
  same_channels hk hk' ∧ mods hk' = mods hk ∧ key hk' = key hk ∧
  chans s' = chans s ∧ keyMap s' = keyMap s.
Proof.
  unfold register, bind_token.
  destruct hk as [[t|] ms k di do ui uo]; simpl.
  - destruct (backend_unregister t (world s)) as [w [e|]]; simpl.
    + by intros [= <- <- <-].
    + destruct (backend_register ms k w) as [w' [t'|e']];
        by intros [= <- <- <-].
  - destruct (backend_register ms k (world s)) as [w' [t'|e']];
      by intros [= <- <- <-].
Qed.

(** C7.  When a Hotkey holds no token and the backend refuses the
    registration, [Register] returns the backend's error, the Hotkey is
    returned as it was (no token, the same modifiers, key and channels),
    and of the package state only the backend and the record of calls made
    to it have changed: no event channel was touched. *)
Theorem Register_backend_failure hk s (w : World) (e : Error) :
  platformHotkey hk = None →
  backend_register (mods hk) (key hk) (world s) = (w, inr e) →
  ∃ s', Register hk s = Done ((hk, Some e), s') ∧
        platformHotkey hk = None ∧
        chans s' = chans s ∧ keyMap s' = keyMap s ∧
        calls s' = calls s ++ [CallRegister (mods hk) (key hk)].
Proof.
  intros Ht Hb. unfold Register, register, bind_token. rewrite Ht, Hb.
  by eexists.
Qed.

(** C5.  When a Hotkey holds a token and the backend accepts both the
    release of that token and the new registration, [Register] returns no
    error, the Hotkey holds the fresh token, its four channel fields are
    the ones it had, so [Keydown] and [Keyup] return the same handles, and
    every event channel is in the state it was in, queued events
    included. *)
Theorem Register_again hk s (t t' : Token) (w w' : World) :
  platformHotkey hk = Some t →
  backend_unregister t (world s) = (w, None) →
  backend_register (mods hk) (key hk) w = (w', inl t') →
  ∃ hk' s', Register hk s = Done ((hk', None), s') ∧
            platformHotkey hk' = Some t' ∧
            same_channels hk hk' ∧
            Keydown hk' = Keydown hk ∧ Keyup hk' = Keyup hk ∧
            chans s' = chans s ∧
            calls s' = calls s ++ [CallUnregister t; CallRegister (mods hk) (key hk)].
Proof.
  intros Ht Hu Hr. unfold Register, register, bind_token. rewrite Ht, Hu.
  simpl. rewrite Hr. eexists _, _. split; [reflexivity|].
  simpl. by rewrite <-(assoc_L (++)).
Qed.

(** C8.  When [hk.unregister] returns an error, [Unregister] returns that
    error at once: the four channel fields and the token of the Hotkey are
    the ones it had, and every event channel is in the state it was in, so
    none has been closed. *)
Theorem Unregister_backend_failure hk s hk1 (e : Error) s1 :
  unregister hk s = Done ((hk1, Some e), s1) →
  Unregister hk s = Done ((hk1, Some e), s1) ∧
  hk1 = hk ∧ same_channels hk hk1 ∧
  chans s1 = chans s.
Proof.
  intros Hu. split.
  - unfold Unregister, bind. by rewrite Hu.
  - destruct (unregister_frame hk s) as (r & w & Hf). rewrite Hf in Hu.
    simplify_eq. by destruct hk.
Qed.


(** *** [Unregister] and the finalizer *)

(** What a successful [Unregister] has done. *)
Lemma Unregister_Done hk s hk' s' :
  Unregister hk s = Done ((hk', None), s') →
  ∃ w cd cu,
    in_id (keydownIn hk) ≠ in_id (keyupIn hk) ∧
    chans s !! in_id (keydownIn hk) = Some cd ∧
    chans s !! in_id (keyupIn hk) = Some cu ∧
    in_closed cd = false ∧ in_closed cu = false ∧
    hk' = mkHotkey None (mods hk) (key hk)
            (InOf (length (chans s))) (OutOf (length (chans s)))
            (InOf (S (length (chans s)))) (OutOf (S (length (chans s)))) ∧
    s' = mkPkg (<[in_id (keyupIn hk) := Chan true (wk cu)]>
                  (<[in_id (keydownIn hk) := Chan true (wk cd)]> (chans s))
                ++ [newChan; newChan])
               (keyMap s) w (calls s ++ release_calls hk).
Proof.
  intros HU. destruct (unregister_frame hk s) as (r & w & Hf).
  unfold Unregister in HU.
  apply bind_Done in HU as ([hk1 r1] & s1 & Hu & HU).
  rewrite Hf in Hu. injection Hu as <- <- <-. simpl in HU.
  destruct r as [e|]; [by unfold ret in HU|].
  destruct hk as [tok ms k [kd] kdo [ku] kuo]; simpl in *.
  apply bind_Done in HU as ([] & s2 & Hc1 & HU).
  apply closeIn_Done in Hc1 as (cd & Hcd & Hod & ->).
  apply bind_Done in HU as ([] & s3 & Hc2 & HU).
  apply closeIn_Done in Hc2 as (cu & Hcu & Hou & ->).
  simpl in *.
  assert (kd ≠ ku) as Hne.
  { intros <-. rewrite list_lookup_insert_eq in Hcu by by eapply lookup_lt_Some.
    by simplify_eq. }
  rewrite list_lookup_insert_ne in Hcu by done.
  unfold bind, newEventChan, ret in HU. simpl in HU.
  rewrite !length_app, !length_insert in HU. simpl in HU.
  injection HU as <- <-.
  exists w, cd, cu. split_and!; try done.
  - unfold set_keyup, set_keydown, set_platformHotkey. simpl.
    by rewrite Nat.add_1_r.
  - unfold set_chans. simpl. by rewrite <-(assoc_L (++)).
Qed.

(** What the finalizer does to a Hotkey whose channels are open. *)
Lemma finalizer_live hk s :
  live hk s →
  ∃ w cd cu,
    chans s !! in_id (keydownIn hk) = Some cd ∧
    chans s !! in_id (keyupIn hk) = Some cu ∧
    finalizer hk s
    = Done ((), mkPkg (<[in_id (keyupIn hk) := Chan true (wk cu)]>
                         (<[in_id (keydownIn hk) := Chan true (wk cd)]> (chans s)))
                      (keyMap s) w (calls s ++ release_calls hk)).
Proof.
  intros (Hne & cd & cu & Hcd & Hcu & Hod & Hou).
  destruct (unregister_frame hk s) as (r & w & Hf).
  exists w, cd, cu. split_and!; [done..|].
  unfold finalizer. apply bind_Done. eexists _, _. split; [exact Hf|].
  destruct hk as [tok ms k [kd] kdo [ku] kuo]; simpl in *.
  apply bind_Done. eexists (), _. split.
  - apply closeIn_Done. by exists cd.
  - apply closeIn_Done. exists cu. simpl. by rewrite list_lookup_insert_ne.
Qed.

(** The Hotkey that [New] returns has two open channels of its own. *)
Lemma New_live ms k s :
  ∃ hk s', New ms k s = Done (hk, s') ∧ live hk s' ∧ paired hk ∧
           platformHotkey hk = None ∧ mods hk = ms ∧ key hk = k.
Proof.
  eexists _, _. split; [reflexivity|]. unfold live, paired. simpl.
  rewrite !length_app. simpl.
  split_and!; try done; [lia|].
  exists newChan, newChan. split_and!; try done.
  - rewrite lookup_app_l by (rewrite length_app; simpl; lia).
    by rewrite lookup_app_r, Nat.sub_diag.
  - rewrite lookup_app_r by (rewrite length_app; simpl; lia).
    rewrite length_app. simpl. by rewrite Nat.sub_diag.
Qed.

(** [Register] keeps the channels of a Hotkey open. *)
Lemma Register_live hk s hk' r s' :
  Register hk s = Done ((hk', r), s') →
  (live hk s → live hk' s') ∧ (paired hk → paired hk').
Proof.
  intros (Hc & _ & _ & Hs & _)%register_frame.
  destruct Hc as (H1 & H2 & H3 & H4).
  unfold live, paired. by rewrite H1, H2, H3, H4, Hs.
Qed.

(** After a successful [Unregister] the Hotkey has two open channels of
    its own again and holds no token. *)
Lemma Unregister_live hk s hk' s' :
  Unregister hk s = Done ((hk', None), s') →
  live hk' s' ∧ paired hk' ∧ platformHotkey hk' = None.
Proof.
  intros (w & cd & cu & Hne & Hcd & Hcu & _ & _ & -> & ->)%Unregister_Done.
  unfold live, paired. simpl. split_and!; try done; try lia.
  exists newChan, newChan. split_and!; try done.
  - rewrite lookup_app_r by (rewrite !length_insert; lia).
    rewrite !length_insert. by rewrite Nat.sub_diag.
  - rewrite lookup_app_r by (rewrite !length_insert; lia).
    rewrite !length_insert.
    by replace (S (length (chans s)) - length (chans s)) with 1 by lia.
Qed.

(** C4.  When [Unregister] returns without error on a Hotkey whose
    consumer handles belong to its producer handles: the two channels it
    had were open and are now closed on the producer side, holding what
    they held; the Hotkey has two event channels allocated by this call,
    fresh and empty; [Keydown] and [Keyup] return handles different from
    the ones they returned before; and a reader of an old handle receives
    the events that channel held and then the closed-indication, and in no
    execution anything else. *)
Theorem Unregister_replaces_channels hk s hk' s' :
  paired hk →
  Unregister hk s = Done ((hk', None), s') →
  ∃ cd cu,
    (chans s !! out_id (Keydown hk) = Some cd ∧ in_closed cd = false ∧
     chans s !! out_id (Keyup hk) = Some cu ∧ in_closed cu = false) ∧
    (chans s' !! in_id (keydownIn hk) = Some (Chan true (wk cd)) ∧
     chans s' !! in_id (keyupIn hk) = Some (Chan true (wk cu))) ∧
    (paired hk' ∧
     length (chans s) ≤ in_id (keydownIn hk') ∧
     length (chans s) ≤ in_id (keyupIn hk') ∧
     in_id (keydownIn hk') ≠ in_id (keyupIn hk') ∧
     chans s' !! in_id (keydownIn hk') = Some newChan ∧
     chans s' !! in_id (keyupIn hk') = Some newChan) ∧
    (Keydown hk' ≠ Keydown hk ∧ Keyup hk' ≠ Keyup hk ∧
     keydownIn hk' ≠ keydownIn hk ∧ keyupIn hk' ≠ keyupIn hk) ∧
    (∃ s1, recvOut (S (length (pending (wk cd)))) (Keydown hk) s'
           = Done ((Got <$> pending (wk cd)) ++ [GotClosed], s1)) ∧
    (∃ s2, recvOut (S (length (pending (wk cu)))) (Keyup hk) s'
           = Done ((Got <$> pending (wk cu)) ++ [GotClosed], s2)) ∧
    (∀ c sch c' os,
       chans s' !! out_id (Keydown hk) = Some c ∨
       chans s' !! out_id (Keyup hk) = Some c →
       run c sch = Done (c', os) →
       ∃ k, os `prefix_of` (Got <$> pending (wk c)) ++ replicate k GotClosed).
Proof.
  intros [Hpd Hpu] HU.
  destruct (Unregister_live _ _ _ _ HU) as ((Hne' & _) & Hp' & _).
  apply Unregister_Done in HU
    as (w & cd & cu & Hne & Hcd & Hcu & Hod & Hou & -> & ->).
  unfold Keydown, Keyup. rewrite Hpd, Hpu. simpl.
  pose proof (lookup_lt_Some _ _ _ Hcd) as Hld.
  pose proof (lookup_lt_Some _ _ _ Hcu) as Hlu.
  set (kd := in_id (keydownIn hk)) in *. set (ku := in_id (keyupIn hk)) in *.
  assert (Hd' : (<[ku := Chan true (wk cu)]> (<[kd := Chan true (wk cd)]> (chans s))
                 ++ [newChan; newChan]) !! kd = Some (Chan true (wk cd))).
  { rewrite lookup_app_l by by rewrite !length_insert.
    rewrite list_lookup_insert_ne by done.
    by rewrite list_lookup_insert_eq. }
  assert (Hu' : (<[ku := Chan true (wk cu)]> (<[kd := Chan true (wk cd)]> (chans s))
                 ++ [newChan; newChan]) !! ku = Some (Chan true (wk cu))).
  { rewrite lookup_app_l by by rewrite !length_insert.
    by rewrite list_lookup_insert_eq by by rewrite length_insert. }
  exists cd, cu. split_and!; try done.
  - lia.
  - rewrite lookup_app_r by (rewrite !length_insert; lia).
    rewrite !length_insert. by rewrite Nat.sub_diag.
  - rewrite lookup_app_r by (rewrite !length_insert; lia).
    rewrite !length_insert.
    by replace (S (length (chans s)) - length (chans s)) with 1 by lia.
  - intros [= ?]. lia.
  - intros [= ?]. lia.
  - destruct (keydownIn hk) as [n]. simpl in *. intros [= ?]. lia.
  - destruct (keyupIn hk) as [n]. simpl in *. intros [= ?]. lia.
  - pose proof (consume_closed (Chan true (wk cd)) eq_refl) as Hx.
    cbn [wk] in Hx. unfold recvOut. cbn [chans out_id]. rewrite Hd', Hx.
    by eexists.
  - pose proof (consume_closed (Chan true (wk cu)) eq_refl) as Hx.
    cbn [wk] in Hx. unfold recvOut. cbn [chans out_id]. rewrite Hu', Hx.
    by eexists.
  - intros c sch c' os Hc Hr.
    apply (closed_run_prefix sch c c' os); [|done].
    destruct Hc as [Hc|Hc]; rewrite Hc in *; by simplify_eq.
Qed.

(** C6.  For a Hotkey that holds a token and whose two channels are open:
    the finalizer returns, with the producer sides of both channels closed
    and exactly one call made to the backend, the release of the token;
    and if [Unregister] has returned without error before, the finalizer
    still returns: it makes no further call to the backend, so the token
    was released once, it closes the two channels that [Unregister] put in
    place, and it leaves the channels that [Unregister] closed as they
    are. *)
Theorem finalizer_cleanup hk s (t : Token) :
  live hk s →
  platformHotkey hk = Some t →
  (∃ s1, finalizer hk s = Done ((), s1) ∧
         closed_in (keydownIn hk) s1 ∧ closed_in (keyupIn hk) s1 ∧
         calls s1 = calls s ++ [CallUnregister t]) ∧
  (∀ hk' s', Unregister hk s = Done ((hk', None), s') →
     ∃ s2, finalizer hk' s' = Done ((), s2) ∧
           closed_in (keydownIn hk') s2 ∧ closed_in (keyupIn hk') s2 ∧
           calls s' = calls s ++ [CallUnregister t] ∧
           calls s2 = calls s' ∧
           chans s2 !! in_id (keydownIn hk) = chans s' !! in_id (keydownIn hk) ∧
           chans s2 !! in_id (keyupIn hk) = chans s' !! in_id (keyupIn hk)).
Proof.
  intros Hlive Htok.
  assert (Hfin : ∀ hk0 s0, live hk0 s0 →
            ∃ s1, finalizer hk0 s0 = Done ((), s1) ∧
                  closed_in (keydownIn hk0) s1 ∧ closed_in (keyupIn hk0) s1 ∧
                  calls s1 = calls s0 ++ release_calls hk0 ∧
                  ∀ n, n ≠ in_id (keydownIn hk0) → n ≠ in_id (keyupIn hk0) →
                       chans s1 !! n = chans s0 !! n).
  { intros hk0 s0 Hl. pose proof Hl as (Hne & _).
    destruct (finalizer_live _ _ Hl) as (w & cd & cu & Hcd & Hcu & ->).
    pose proof (lookup_lt_Some _ _ _ Hcd) as Hld.
    pose proof (lookup_lt_Some _ _ _ Hcu) as Hlu.
    eexists. split; [reflexivity|]. simpl. split_and!; try done.
    - exists (Chan true (wk cd)). simpl.
      rewrite list_lookup_insert_ne by done.
      by rewrite list_lookup_insert_eq by done.
    - exists (Chan true (wk cu)). simpl.
      by rewrite list_lookup_insert_eq by by rewrite length_insert.
    - intros n H1 H2. by rewrite !list_lookup_insert_ne by done. }
  split.
  - destruct (Hfin _ _ Hlive) as (s1 & Hf & H1 & H2 & Hc & _).
    exists s1. unfold release_calls in Hc. by rewrite Htok in Hc.
  - intros hk' s' HU.
    destruct (Unregister_live _ _ _ _ HU) as (Hl' & _ & Htok').
    destruct (Hfin _ _ Hl') as (s2 & Hf & H1 & H2 & Hc & Hother).
    apply Unregister_Done in HU
      as (w & cd & cu & Hne & Hcd & Hcu & Hod & Hou & -> & ->).
    pose proof (lookup_lt_Some _ _ _ Hcd) as Hld.
    pose proof (lookup_lt_Some _ _ _ Hcu) as Hlu.
    exists s2. split_and!; [exact Hf|exact H1|exact H2|..].
    + simpl. unfold release_calls. by rewrite Htok.
    + rewrite Hc. unfold release_calls. simpl. by rewrite app_nil_r.
    + apply Hother; simpl; lia.
    + apply Hother; simpl; lia.
Qed.

(** *** The package never writes [KeyMap] *)

Lemma keeps_ret {A} (a : A) : keeps_keyMap (ret a).
Proof. by intros s a' s' [= _ <-]. Qed.

Lemma keeps_bind {A B} (m : M A) (k : A → M B) :
  keeps_keyMap m → (∀ a, keeps_keyMap (k a)) → keeps_keyMap (bind m k).
Proof.
  intros Hm Hk s b s' (a & s1 & H1 & H2)%bind_Done.
  rewrite (Hk _ _ _ _ H2). eauto.
Qed.

Lemma keeps_newEventChan : keeps_keyMap newEventChan.
Proof. by intros s a s' [= _ <-]. Qed.

Lemma keeps_on_chan id a r :
  (∀ o s', r = Done (o, s') → False) → keeps_keyMap (on_chan id a r).
Proof.
  intros Hr s o s'. unfold on_chan.
  destruct (chans s !! id) as [c|]; [|by intros ?%Hr].
  destruct (step c a) as [[??]| |]; [|done..]. by intros [= _ <-].
Qed.

Lemma keeps_closeIn h : keeps_keyMap (closeIn h).
Proof.
  apply keeps_bind; [by apply keeps_on_chan|]. intros _. apply keeps_ret.
Qed.

Lemma keeps_unregister hk : keeps_keyMap (unregister hk).
Proof.
  intros s a s' Hu. destruct (unregister_frame hk s) as (r & w & Hf).
  rewrite Hf in Hu. by injection Hu as <- <-.
Qed.

Lemma keeps_register hk : keeps_keyMap (register hk).
Proof. intros s [hk' r] s' Hr. by apply register_frame in Hr as (_&_&_&_&?). Qed.

Lemma keeps_New ms k : keeps_keyMap (New ms k).
Proof.
  apply keeps_bind; [apply keeps_newEventChan|]. intros kd.
  apply keeps_bind; [apply keeps_newEventChan|]. intros ku. apply keeps_ret.
Qed.

Lemma keeps_finalizer hk : keeps_keyMap (finalizer hk).
Proof.
  apply keeps_bind; [apply keeps_unregister|]. intros r.
  apply keeps_bind; [apply keeps_closeIn|]. intros _. apply keeps_closeIn.
Qed.

Lemma keeps_Unregister hk : keeps_keyMap (Unregister hk).
Proof.
  apply keeps_bind; [apply keeps_unregister|]. intros [hk1 [e|]]; simpl.
  - apply keeps_ret.
  - apply keeps_bind; [apply keeps_closeIn|]. intros _.
    apply keeps_bind; [apply keeps_closeIn|]. intros _.
    apply keeps_bind; [apply keeps_newEventChan|]. intros kd.
    apply keeps_bind; [apply keeps_newEventChan|]. intros ku. apply keeps_ret.
Qed.

Lemma keeps_with_hotkey {A} heap p (k : Hotkey → M A) :
  (∀ hk, keeps_keyMap (k hk)) → keeps_keyMap (with_hotkey heap p k).
Proof. intros Hk. unfold with_hotkey. by destruct (heap !! p) as [[hk|]|]. Qed.

Lemma keeps_exec op heap : keeps_keyMap (exec op heap).
Proof.
  destruct op; simpl.
  - apply keeps_bind; [apply keeps_New|]. intros hk. apply keeps_ret.
  - apply keeps_with_hotkey. intros hk.
    apply keeps_bind; [apply keeps_register|]. intros r. apply keeps_ret.
  - apply keeps_with_hotkey. intros hk.
    apply keeps_bind; [apply keeps_Unregister|]. intros r. apply keeps_ret.
  - apply keeps_with_hotkey. intros hk. apply keeps_ret.
  - apply keeps_with_hotkey. intros hk. apply keeps_ret.
  - apply keeps_with_hotkey. intros hk. apply keeps_ret.
  - apply keeps_bind; [apply keeps_newEventChan|]. intros io. apply keeps_ret.
  - apply keeps_with_hotkey. intros hk.
    apply keeps_bind; [apply keeps_finalizer|]. intros _. apply keeps_ret.
Qed.

Lemma keeps_execs ops : ∀ heap, keeps_keyMap (execs ops heap).
Proof.
  induction ops as [|op ops IH]; intros heap; simpl.
  - apply keeps_ret.
  - apply keeps_bind; [apply keeps_exec|]. intros r.
    apply keeps_bind; [apply IH|]. intros rs. apply keeps_ret.
Qed.

(** [TestKeyMap]: the table has 65 entries and holds every listed name. *)
Lemma TestKeyMap :
  size KeyMap = length keyMapKeys ∧
  Forall (λ name, is_Some (KeyMap !! name)) keyMapKeys.
Proof.
  split; [by vm_compute|].
  unfold keyMapKeys. repeat (constructor; [by vm_compute; eexists|]). constructor.
Qed.

(** C10.  No program of calls to [New], [Register], [Unregister],
    [Keydown], [Keyup], [String], [newEventChan] and the finalizer changes
    [KeyMap]: after it the table is the table from before, every name
    looks up what it looked up before, and, started from the initialised
    package, what the literal of [KeyMap] gives. *)
Theorem KeyMap_never_mutated (ops : list Op) (heap : list (option Hotkey)) s
    (rs : list Ret) (heap' : list (option Hotkey)) s' :
  execs ops heap s = Done ((rs, heap'), s') →
  keyMap s' = keyMap s ∧
  (∀ name, lookupKey name s' = lookupKey name s) ∧
  (∀ w, s = initPkg w → ∀ name, lookupKey name s' = KeyMap !! name).
Proof.
  intros He. apply keeps_execs in He. unfold lookupKey. rewrite He.
  split_and!; [done..|]. by intros w ->.
Qed.

End Lifecycle.
End HotkeyProps.

(** * The theorems at work on concrete executions *)

Module RelayScenarios.
Import EventChan EventChanProps.

(** Three sends, interleaved with two receives. *)
Lemma relay_is_fifo_witness :
  run newChan [Send 1; Send 2; Recv; Send 3; Recv]
  = Done (Chan false (AtSelect 3 []), [Got 1; Got 2]) ∧
  (sends [Send 1; Send 2; Recv; Send 3; Recv]
   = events [Got 1; Got 2] ++ pending (wk (Chan false (AtSelect 3 []))) ∧
   events [Got 1; Got 2] `prefix_of` sends [Send 1; Send 2; Recv; Send 3; Recv] ∧
   ∃ c', consume (length (pending (wk (Chan false (AtSelect 3 [])))))
           (Chan false (AtSelect 3 []))
         = Done (c', Got <$> pending (wk (Chan false (AtSelect 3 []))))).
Proof.
  split; [reflexivity|].
  apply (relay_is_fifo [Send 1; Send 2; Recv; Send 3; Recv]). reflexivity.
Defined.

(** Two events are queued and unread; a third send is taken at once, and
    so are three more in a row. *)
Lemma send_never_waits_witness :
  run newChan [Send 1; Send 2] = Done (Chan false (AtSelect 1 [2]), []) ∧
  in_closed (Chan false (AtSelect 1 [2])) = false ∧
  (∃ c', step (Chan false (AtSelect 1 [2])) (Send 3) = Done (c', None) ∧
         in_closed c' = false ∧
         pending (wk c') = pending (wk (Chan false (AtSelect 1 [2]))) ++ [3]) ∧
  (∃ c', run (Chan false (AtSelect 1 [2])) (Send <$> [3; 4; 5]) = Done (c', []) ∧
         in_closed c' = false ∧
         pending (wk c') = pending (wk (Chan false (AtSelect 1 [2]))) ++ [3; 4; 5]).
Proof.
  split; [reflexivity|]. split; [reflexivity|].
  destruct (send_never_waits [Send 1; Send 2] (Chan false (AtSelect 1 [2])) []
              eq_refl eq_refl) as [H1 Hn].
  split; [exact (H1 3)|exact (Hn [3; 4; 5])].
Defined.

(** Two events and a close with nobody receiving: the worker enters its
    final loop, from which the consumer receives both events in order and
    then the closed-indication. *)
Example drain_after_close :
  run newChan [Send 1; Send 2; Close; SeeClose] = Done (Chan true (AtDrain 1 [2]), []) ∧
  run (Chan true (AtDrain 1 [2])) [Recv; Recv; Recv]
  = Done (Chan true Exited, [Got 1; Got 2; GotClosed]) ∧
  consume 3 (Chan true (AtDrain 1 [2]))
  = Done (Chan true Exited, [Got 1; Got 2; GotClosed]).
Proof. by split_and!. Qed.

(** Zero events and a close: the first receive is the closed-indication. *)
Example close_without_events :
  run (@newChan nat) [Close; SeeClose; Recv] = Done (Chan true Exited, [GotClosed]) ∧
  consume 1 (Chan true (@AtRecvIn nat)) = Done (Chan true Exited, [GotClosed]).
Proof. by split. Qed.

(** A receive on an open channel with nothing queued suspends; a send
    after the close and a second close panic. *)
Example blocked_and_panics :
  receive (@newChan nat) = Blocked ∧
  run newChan [Close; Send 1] = Panic send_on_closed ∧
  run (@newChan nat) [Close; Close] = Panic close_of_closed.
Proof. by split_and!. Qed.

End RelayScenarios.

Module HotkeyScenarios.
Import EventChan EventChanProps Hotkey HotkeyProps Stub.
#[local] Existing Instance stub.

Notation "'let!' x ':=' m 'in' k" := (bind m (λ x, k))
  (at level 10, x pattern, m at level 100, k at level 200).
Notation "m ';;;' k" := (bind m (λ _, k))
  (at level 100, k at level 200, right associativity).

Example reach_s0 :
  (let! hk := New combo keyS in
   let! r := Register hk in
   onKeydown r.1 ;;; onKeydown r.1 ;;; ret (r.1, r.2)) (initPkg world0)
  = Done ((hk0, None), s0).
Proof. reflexivity. Qed.

Example String_hk0 : String hk0 = "29+ctrl+shift".
Proof. by vm_compute. Qed.

(** The order of the modifiers is the order given, not a sorted one. *)
Example String_order :
  String (mkHotkey None [ModShift; ModCtrl] keyS (InOf 0) (OutOf 0) (InOf 1) (OutOf 1))
  = "29+shift+ctrl".
Proof. by vm_compute. Qed.

Lemma live_hk0 : live hk0 s0.
Proof. split; [done|]. by eexists _, _. Defined.

Lemma Unregister_replaces_channels_witness :
  paired hk0 ∧
  Unregister hk0 s0 = Done ((hk1, None), s1) ∧
  Keydown hk1 ≠ Keydown hk0 ∧ Keyup hk1 ≠ Keyup hk0 ∧
  chans s1 !! in_id (keydownIn hk1) = Some newChan ∧
  chans s1 !! in_id (keyupIn hk1) = Some newChan.
Proof.
  split; [done|]. split; [reflexivity|].
  destruct (Unregister_replaces_channels hk0 s0 hk1 s1)
    as (cd & cu & _ & _ & (_ & _ & _ & _ & ? & ?) & (? & ? & _) & _);
    [done|reflexivity|done].
Defined.

(** The reader of the old key-down handle gets the two queued events and
    then the closed-indication. *)
Example old_handle_drains :
  ∃ s2, recvOut 3 (Keydown hk0) s1 = Done ([Got mkEvent; Got mkEvent; GotClosed], s2).
Proof. by eexists. Qed.

Lemma Register_again_witness :
  platformHotkey hk0 = Some 0 ∧
  backend_unregister 0 (world s0) = (mkStubWorld [] 1, None) ∧
  backend_register (mods hk0) (key hk0) (mkStubWorld [] 1)
  = (mkStubWorld [(1, (combo, keyS))] 2, inl 1) ∧
  ∃ hk' s', Register hk0 s0 = Done ((hk', None), s') ∧
            platformHotkey hk' = Some 1 ∧
            same_channels hk0 hk' ∧
            Keydown hk' = Keydown hk0 ∧ Keyup hk' = Keyup hk0 ∧
            chans s' = chans s0 ∧
            calls s' = calls s0 ++ [CallUnregister 0; CallRegister (mods hk0) (key hk0)].
Proof.
  split; [reflexivity|]. split; [reflexivity|]. split; [reflexivity|].
  apply (Register_again hk0 s0 0 1 (mkStubWorld [] 1)
           (mkStubWorld [(1, (combo, keyS))] 2)); reflexivity.
Defined.

(** After the second [Register] the two queued events are still read from
    the handle obtained before it. *)
Example events_survive_Register :
  ∃ s2, (let! r := Register hk0 in recvOut 2 (Keydown hk0)) s0
        = Done ([Got mkEvent; Got mkEvent], s2).
Proof. by eexists. Qed.

Lemma finalizer_cleanup_witness :
  live hk0 s0 ∧ platformHotkey hk0 = Some 0 ∧
  (∃ s', finalizer hk0 s0 = Done ((), s') ∧
         closed_in (keydownIn hk0) s' ∧ closed_in (keyupIn hk0) s' ∧
         calls s' = calls s0 ++ [CallUnregister 0]) ∧
  (∃ s2, finalizer hk1 s1 = Done ((), s2) ∧ calls s2 = calls s1).
Proof.
  split; [exact live_hk0|]. split; [reflexivity|].
  destruct (finalizer_cleanup hk0 s0 0 live_hk0 eq_refl) as [Hdrop Hafter].
  split; [exact Hdrop|].
  destruct (Hafter hk1 s1 eq_refl) as (s2 & Hf & _ & _ & _ & Hc & _).
  by exists s2.
Defined.

(** A finalizer that ran twice on the same channels would close a closed
    channel. *)
Example finalizer_twice_panics :
  (finalizer hk0 ;;; finalizer hk0) s0 = Panic close_of_closed.
Proof. reflexivity. Qed.

Example reach_sB : New combo keyS s0 = Done (hkB, sB).
Proof. reflexivity. Qed.

Lemma Register_backend_failure_witness :
  platformHotkey hkB = None ∧
  backend_register (mods hkB) (key hkB) (world sB) = (world sB, inr AlreadyBound) ∧
  ∃ s', Register hkB sB = Done ((hkB, Some AlreadyBound), s') ∧
        platformHotkey hkB = None ∧
        chans s' = chans sB ∧ keyMap s' = keyMap sB ∧
        calls s' = calls sB ++ [CallRegister (mods hkB) (key hkB)].
Proof.
  split; [reflexivity|]. split; [reflexivity|].
  apply (Register_backend_failure hkB sB (world sB) AlreadyBound); reflexivity.
Defined.

Lemma Unregister_backend_failure_witness :
  unregister hk_stale s0 = Done ((hk_stale, Some UnknownToken), s_stale) ∧
  Unregister hk_stale s0 = Done ((hk_stale, Some UnknownToken), s_stale) ∧
  hk_stale = hk_stale ∧ same_channels hk_stale hk_stale ∧
  chans s_stale = chans s0.
Proof.
  split; [reflexivity|].
  apply (Unregister_backend_failure hk_stale s0 hk_stale UnknownToken s_stale).
  reflexivity.
Defined.

Lemma demo_run (km : gmap string nat) :
  execs demo_ops [] (mkPkg [] km world0 []) = Done ((demo_rets, [None]), demo_end km).
Proof. by vm_compute. Qed.

Lemma KeyMap_never_mutated_witness :
  execs demo_ops [] (initPkg world0) = Done ((demo_rets, [None]), demo_end KeyMap) ∧
  keyMap (demo_end KeyMap) = keyMap (initPkg world0) ∧
  (∀ name, lookupKey name (demo_end KeyMap) = lookupKey name (initPkg world0)) ∧
  (∀ w, initPkg world0 = initPkg w →
        ∀ name, lookupKey name (demo_end KeyMap) = KeyMap !! name).
Proof.
  split; [exact (demo_run KeyMap)|].
  exact (KeyMap_never_mutated demo_ops [] _ _ _ _ (demo_run KeyMap)).
Defined.

Example lookup_KeyS : lookupKey "KeyS" (initPkg world0) = Some 29.
Proof. by vm_compute. Qed.

(** The scenario of the specification: register Ctrl+Shift+S, a key-down
    and a key-up fire and are received, [Unregister] succeeds; the backend
    has seen one register call and one unregister call. *)
Example scenario_press_release :
  ∃ s',
    (let! hk := New combo keyS in
     let! r := Register hk in
     onKeydown r.1 ;;;
     let! d := recvOut 1 (Keydown r.1) in
     onKeyup r.1 ;;;
     let! u := recvOut 1 (Keyup r.1) in
     let! r' := Unregister r.1 in
     ret (r.2, d, u, r'.2)) (initPkg world0)
    = Done ((None, [Got mkEvent], [Got mkEvent], None), s') ∧
    calls s' = [CallRegister combo keyS; CallUnregister 0].
Proof. by eexists. Qed.

End HotkeyScenarios.

(** * Further properties of the event relay *)

Module RelayExtras.
Import EventChan EventChanProps.
Section Relay.
Context {E : Type}.
Implicit Types (c : chan E) (a : action E) (q es : list E) (os : list (obs E)).

(** Once the worker has returned, the consumer is the only party that can
    still take a step, and all it gets is the closed-indication. *)
Lemma exited_run sch : ∀ c c' os,
  wk c = Exited → in_closed c = true →
  run c sch = Done (c', os) →
  c' = c ∧ os = replicate (length os) GotClosed.
Proof.
  induction sch as [|a sch IH]; intros c c' os Hw Hc Hr.
  - simpl in Hr. by simplify_eq.
  - apply run_cons_inv in Hr as (c1 & o & os' & Hs & Hr & ->).
    destruct c as [b w]. simpl in Hw, Hc. subst b w.
    destruct a; simpl in Hs; try done. simplify_eq.
    apply IH in Hr as [-> Hos]; [|done..]. split; [done|].
    simpl. by rewrite <-Hos.
Qed.

(** [in] is closed only by a [Close]. *)
Lemma closed_needs_Close sch : ∀ c c' os,
  run c sch = Done (c', os) → in_closed c' = true →
  in_closed c = true ∨ Close ∈ sch.
Proof.
  induction sch as [|a sch IH]; intros c c' os Hr Hc'.
  - simpl in Hr. simplify_eq. by left.
  - apply run_cons_inv in Hr as (c1 & o & os' & Hs & Hr & ->).
    destruct (IH _ _ _ Hr Hc') as [Hc1|Hin]; [|right; by apply elem_of_cons; right].
    destruct c as [b w], a as [e| | |]; simpl in Hs.
    + destruct b; [done|]. destruct w; by simplify_eq.
    + right. apply elem_of_cons. by left.
    + destruct b; [by left|done].
    + destruct w; simplify_eq/=; by left.
Qed.

(** What the consumer sees is a run of events followed by a run of
    closed-indications, and the latter only from a worker that has
    returned. *)
Lemma obs_shape sch : ∀ c c' os,
  wf c → run c sch = Done (c', os) →
  ∃ k, os = (Got <$> events os) ++ replicate k GotClosed ∧
       (0 < k → wk c' = Exited).
Proof.
  induction sch as [|a sch IH]; intros c c' os Hwf Hr.
  - simpl in Hr. simplify_eq. exists 0. split; [done|lia].
  - apply run_cons_inv in Hr as (c1 & o & os' & Hs & Hr & ->).
    pose proof (step_wf _ _ _ _ Hwf Hs) as Hwf1.
    destruct o as [[e|]|].
    + destruct (IH _ _ _ Hwf1 Hr) as (k & Hos & Hk).
      exists k. split; [|done]. rewrite events_obs.
      change (Got e :: os' = Got e :: ((Got <$> events os') ++ replicate k GotClosed)).
      by rewrite <-Hos.
    + assert (wk c = Exited ∧ c1 = c) as [Hw ->].
      { destruct c as [b w], a; simpl in Hs; try done.
        - destruct b; [done|]. by destruct w.
        - by destruct b.
        - destruct b; [|done]. by destruct w.
        - destruct w; by simplify_eq. }
      assert (in_closed c = true) as Hc.
      { destruct (in_closed c) eqn:Hb; [done|].
        destruct (Hwf Hb) as [?|(?&?&?)]; congruence. }
      destruct (exited_run _ _ _ _ Hw Hc Hr) as [-> Hos].
      exists (S (length os')). split; [|done]. rewrite events_obs.
      assert (events os' = []) as ->.
      { rewrite Hos. clear. induction (length os') as [|n IHn]; [done|]. exact IHn. }
      change (GotClosed :: os' = GotClosed :: replicate (length os') GotClosed).
      by rewrite <-Hos.
    + destruct (IH _ _ _ Hwf1 Hr) as (k & Hos & Hk). by exists k.
Qed.

(** X1.  In every execution of an event channel the consumer sees events
    and then, possibly, closed-indications, never an event after a
    closed-indication; and it sees a closed-indication only when the
    producer has closed the channel, every event sent has been received
    and the worker has closed [out]. *)
Theorem closed_indication_is_final (sch : list (action E)) (c : chan E)
    (os : list (obs E)) :
  run newChan sch = Done (c, os) →
  ∃ k, os = (Got <$> events os) ++ replicate k GotClosed ∧
       (0 < k → Close ∈ sch ∧ events os = sends sch ∧ out_closed c = true).
Proof.
  intros Hr.
  destruct (obs_shape _ _ _ _ wf_newChan Hr) as (k & Hos & Hk).
  exists k. split; [done|]. intros Hpos. specialize (Hk Hpos).
  pose proof (run_wf _ _ _ _ wf_newChan Hr) as Hwf.
  assert (in_closed c = true) as Hc.
  { destruct (in_closed c) eqn:Hb; [done|].
    destruct (Hwf Hb) as [?|(?&?&?)]; congruence. }
  split_and!.
  - by destruct (closed_needs_Close _ _ _ _ Hr Hc).
  - apply run_conserves in Hr. rewrite Hk in Hr. simpl in Hr.
    by rewrite app_nil_r in Hr.
  - unfold out_closed. by rewrite Hk.
Qed.

(** X2.  In every state an event channel can reach, a receive returns the
    oldest event the worker holds, if it holds one, and leaves the rest
    in order; with nothing held it returns the closed-indication if the
    producer side is closed, and suspends if it is open. *)
Theorem receive_cases (sch : list (action E)) (c : chan E) (os : list (obs E)) :
  run newChan sch = Done (c, os) →
  match pending (wk c) with
  | e :: q => ∃ c', receive c = Done (c', Got e) ∧
                    pending (wk c') = q ∧ in_closed c' = in_closed c
  | [] => receive c = if in_closed c then Done (Chan true Exited, GotClosed)
                      else Blocked
  end.
Proof.
  intros Hwf%run_wf; [|apply wf_newChan].
  destruct c as [b [|hd tl|hd tl|]]; simpl.
  - by destruct b.
  - exists (Chan b (loop_head tl)).
    split_and!; [done|apply pending_loop_head|done].
  - exists (Chan b (drain_head tl)).
    split_and!; [done|apply pending_drain_head|done].
  - destruct b; [done|]. by destruct (Hwf eq_refl) as [?|(?&?&?)].
Qed.

(** X3.  Wherever in an execution the producer has closed the channel,
    and whatever the consumer has received by then, the consumer's
    further receives return the events still held, in order, and then the
    closed-indication, with the worker returned; together with what was
    received before, these are exactly the events sent. *)
Theorem close_anytime_drains (sch : list (action E)) (c : chan E)
    (os : list (obs E)) :
  run newChan sch = Done (c, os) →
  in_closed c = true →
  ∃ rest, consume (S (length rest)) c
          = Done (Chan true Exited, (Got <$> rest) ++ [GotClosed]) ∧
          events os ++ rest = sends sch.
Proof.
  intros Hr Hc. exists (pending (wk c)). split.
  - by apply consume_closed.
  - by apply run_conserves in Hr.
Qed.

End Relay.

Lemma closed_indication_is_final_witness :
  run newChan [Send 1; Recv; Send 2; Close; Recv; SeeClose; Recv; Recv]
  = Done (Chan true Exited, [Got 1; Got 2; GotClosed; GotClosed]) ∧
  ∃ k, [Got 1; Got 2; GotClosed; GotClosed]
       = (Got <$> events [Got 1; Got 2; GotClosed; GotClosed])
         ++ replicate k GotClosed ∧
       (0 < k →
        Close ∈ [Send 1; Recv; Send 2; Close; Recv; SeeClose; Recv; Recv] ∧
        events [Got 1; Got 2; GotClosed; GotClosed]
        = sends [Send 1; Recv; Send 2; Close; Recv; SeeClose; Recv; Recv] ∧
        out_closed (Chan true (@Exited nat)) = true).
Proof.
  split; [reflexivity|].
  apply (closed_indication_is_final
           [Send 1; Recv; Send 2; Close; Recv; SeeClose; Recv; Recv]).
  reflexivity.
Defined.

Lemma receive_cases_witness :
  run newChan [Send 1; Send 2; Send 3; Recv]
  = Done (Chan false (AtSelect 2 [3]), [Got 1]) ∧
  ∃ c', receive (Chan false (AtSelect 2 [3])) = Done (c', Got 2) ∧
        pending (wk c') = [3] ∧ in_closed c' = false.
Proof.
  split; [reflexivity|].
  exact (receive_cases [Send 1; Send 2; Send 3; Recv]
           (Chan false (AtSelect 2 [3])) [Got 1] eq_refl).
Defined.

Lemma close_anytime_drains_witness :
  run newChan [Send 1; Send 2; Recv; Send 3; Close]
  = Done (Chan true (AtSelect 2 [3]), [Got 1]) ∧
  in_closed (Chan true (AtSelect 2 [3])) = true ∧
  ∃ rest, consume (S (length rest)) (Chan true (AtSelect 2 [3]))
          = Done (Chan true Exited, (Got <$> rest) ++ [GotClosed]) ∧
          events [Got 1] ++ rest = sends [Send 1; Send 2; Recv; Send 3; Close].
Proof.
  split; [reflexivity|]. split; [reflexivity|].
  apply (close_anytime_drains [Send 1; Send 2; Recv; Send 3; Close]); reflexivity.
Defined.

End RelayExtras.

(** * Further properties of the package *)

Module HotkeyExtras.
Import EventChan EventChanProps Hotkey HotkeyProps.
Section Package.
Context `{P : Platform}.
Implicit Types (hk : Hotkey) (s : Pkg) (h : sendH) (heap : list (option Hotkey)).

(** *** What [Unregister] returns *)

Lemma Unregister_inv hk s hk' r s' :
  Unregister hk s = Done ((hk', r), s') →
  r = None ∨
  ∃ e w, r = Some e ∧ hk' = hk ∧
         s' = mkPkg (chans s) (keyMap s) w (calls s ++ release_calls hk).
Proof.
  intros HU. destruct r as [e|]; [right|by left].
  destruct (unregister_frame hk s) as (r0 & w & Hf).
  unfold Unregister in HU.
  apply bind_Done in HU as ([hk1 r1] & s1 & Hu & HU).
  rewrite Hf in Hu. injection Hu as <- <- <-. simpl in HU.
  destruct r0 as [e0|].
  - unfold ret in HU. injection HU as <- <- <-. exists e0, w. by destruct hk.
  - apply bind_Done in HU as ([] & s2 & _ & HU).
    apply bind_Done in HU as ([] & s3 & _ & HU).
    apply bind_Done in HU as (kd & s4 & _ & HU).
    apply bind_Done in HU as (ku & s5 & _ & HU).
    by unfold ret in HU.
Qed.

Lemma Unregister_touches hk s hk' r s' :
  Unregister hk s = Done ((hk', r), s') →
  mods hk' = mods hk ∧ key hk' = key hk ∧
  length (chans s') = length (chans s) + (if r is None then 2 else 0) ∧
  only_touches (owns hk) s s'.
Proof.
  intros HU. destruct (Unregister_inv _ _ _ _ _ HU) as [->|(e & w & -> & -> & ->)].
  - apply Unregister_Done in HU
      as (w & cd & cu & Hne & Hcd & Hcu & Hod & Hou & -> & ->).
    unfold only_touches, owns. simpl.
    rewrite length_app, !length_insert. simpl.
    split_and!; [done|done|done|lia|].
    intros n Hn Hown. rewrite lookup_app_l by by rewrite !length_insert.
    rewrite !list_lookup_insert_ne; [done|intros <-; apply Hown; by left|].
    intros <-. apply Hown; by right.
  - unfold only_touches. simpl. split_and!; [done|done|lia|done|done].
Qed.

(** X4.  Whatever [Unregister] returns, it leaves the modifiers and the
    key of the Hotkey as they were and touches no event channel but the
    two the Hotkey held: every other channel allocated before is in the
    state it was in.  It allocates two channels when it returns without
    error and none when it returns an error. *)
Theorem Unregister_frame hk s hk' (r : option Error) s' :
  Unregister hk s = Done ((hk', r), s') →
  mods hk' = mods hk ∧ key hk' = key hk ∧
  length (chans s') = length (chans s) + (if r is None then 2 else 0) ∧
  ∀ n, n < length (chans s) →
       n ≠ in_id (keydownIn hk) → n ≠ in_id (keyupIn hk) →
       chans s' !! n = chans s !! n.
Proof.
  intros (Hm & Hk & Hl & _ & Hf)%Unregister_touches.
  split_and!; [done..|]. intros n Hn H1 H2. apply Hf; [done|].
  by intros [?|?].
Qed.

(** *** Channels are never reopened, emptied or dropped *)

Lemma chans_kept_refl s : chans_kept s s.
Proof. intros n c Hc. by exists c. Qed.

Lemma chans_kept_trans s1 s2 s3 :
  chans_kept s1 s2 → chans_kept s2 s3 → chans_kept s1 s3.
Proof.
  intros H12 H23 n c Hc.
  destruct (H12 _ _ Hc) as (c2 & Hc2 & Hw2 & Hb2).
  destruct (H23 _ _ Hc2) as (c3 & Hc3 & Hw3 & Hb3).
  exists c3. split_and!; [done|congruence|auto].
Qed.

Lemma chans_kept_eq s s' : chans s' = chans s → chans_kept s s'.
Proof. intros Heq n c Hc. exists c. by rewrite Heq. Qed.

Lemma kc_ret {A} (a : A) : keeps_chans (ret a).
Proof. intros s a' s' [= _ <-]. apply chans_kept_refl. Qed.

Lemma kc_bind {A B} (m : M A) (k : A → M B) :
  keeps_chans m → (∀ a, keeps_chans (k a)) → keeps_chans (bind m k).
Proof.
  intros Hm Hk s b s' (a & s1 & H1 & H2)%bind_Done.
  eapply chans_kept_trans; [by eapply Hm|by eapply Hk].
Qed.

Lemma kc_newEventChan : keeps_chans newEventChan.
Proof.
  intros s a s' [= _ <-] n c Hc. exists c. split; [|done].
  simpl. by apply lookup_app_l_Some.
Qed.

Lemma kc_closeIn h : keeps_chans (closeIn h).
Proof.
  intros s [] s' (c0 & Hc0 & Hopen & ->)%closeIn_Done n c Hc. simpl.
  destruct (decide (n = in_id h)) as [->|Hne].
  - rewrite list_lookup_insert_eq by by eapply lookup_lt_Some.
    eexists. split; [done|]. by simplify_eq.
  - rewrite list_lookup_insert_ne by done. by exists c.
Qed.

Lemma kc_unregister hk : keeps_chans (unregister hk).
Proof.
  intros s a s' Hu. destruct (unregister_frame hk s) as (r & w & Hf).
  rewrite Hf in Hu. injection Hu as <- <-. by apply chans_kept_eq.
Qed.

Lemma kc_register hk : keeps_chans (register hk).
Proof.
  intros s [hk' r] s' Hr. apply register_frame in Hr as (_&_&_&?&_).
  by apply chans_kept_eq.
Qed.

Lemma kc_New ms k : keeps_chans (New ms k).
Proof.
  apply kc_bind; [apply kc_newEventChan|]. intros kd.
  apply kc_bind; [apply kc_newEventChan|]. intros ku. apply kc_ret.
Qed.

Lemma kc_finalizer hk : keeps_chans (finalizer hk).
Proof.
  apply kc_bind; [apply kc_unregister|]. intros r.
  apply kc_bind; [apply kc_closeIn|]. intros _. apply kc_closeIn.
Qed.

Lemma kc_Unregister hk : keeps_chans (Unregister hk).
Proof.
  apply kc_bind; [apply kc_unregister|]. intros [hk1 [e|]]; simpl.
  - apply kc_ret.
  - apply kc_bind; [apply kc_closeIn|]. intros _.
    apply kc_bind; [apply kc_closeIn|]. intros _.
    apply kc_bind; [apply kc_newEventChan|]. intros kd.
    apply kc_bind; [apply kc_newEventChan|]. intros ku. apply kc_ret.
Qed.

Lemma kc_with_hotkey {A} heap p (k : Hotkey → M A) :
  (∀ hk, keeps_chans (k hk)) → keeps_chans (with_hotkey heap p k).
Proof. intros Hk. unfold with_hotkey. by destruct (heap !! p) as [[hk|]|]. Qed.

Lemma kc_exec op heap : keeps_chans (exec op heap).
Proof.
  destruct op; simpl.
  - apply kc_bind; [apply kc_New|]. intros hk. apply kc_ret.
  - apply kc_with_hotkey. intros hk.
    apply kc_bind; [apply kc_register|]. intros r. apply kc_ret.
  - apply kc_with_hotkey. intros hk.
    apply kc_bind; [apply kc_Unregister|]. intros r. apply kc_ret.
  - apply kc_with_hotkey. intros hk. apply kc_ret.
  - apply kc_with_hotkey. intros hk. apply kc_ret.
  - apply kc_with_hotkey. intros hk. apply kc_ret.
  - apply kc_bind; [apply kc_newEventChan|]. intros io. apply kc_ret.
  - apply kc_with_hotkey. intros hk.
    apply kc_bind; [apply kc_finalizer|]. intros _. apply kc_ret.
Qed.

Lemma kc_execs ops : ∀ heap, keeps_chans (execs ops heap).
Proof.
  induction ops as [|op ops IH]; intros heap; simpl.
  - apply kc_ret.
  - apply kc_bind; [apply kc_exec|]. intros r.
    apply kc_bind; [apply IH|]. intros rs. apply kc_ret.
Qed.

(** X5.  No program of calls into the package takes anything away from a
    consumer: every event channel allocated before the program is still
    allocated after it under the same handle, its worker holds the events
    it held, in the same order, and a channel that was closed on the
    producer side is still closed.  So an old consumer handle can still be
    drained, and is never revived. *)
Theorem channels_are_kept (ops : list Op) heap s (rs : list Ret)
    (heap' : list (option Hotkey)) s' :
  execs ops heap s = Done ((rs, heap'), s') →
  ∀ n c, chans s !! n = Some c →
    ∃ c', chans s' !! n = Some c' ∧
          wk c' = wk c ∧ pending (wk c') = pending (wk c) ∧
          (in_closed c = true → in_closed c' = true).
Proof.
  intros He n c Hc. apply kc_execs in He.
  destruct (He _ _ Hc) as (c' & Hc' & Hw & Hb).
  exists c'. by rewrite Hw.
Qed.

(** *** The combination of a Hotkey never changes *)

Lemma heap_kept_refl heap : heap_kept heap heap.
Proof. intros p. destruct (heap !! p) as [[hk|]|]; eauto. Qed.

Lemma heap_kept_trans heap1 heap2 heap3 :
  heap_kept heap1 heap2 → heap_kept heap2 heap3 → heap_kept heap1 heap3.
Proof.
  intros H12 H23 p. specialize (H12 p). specialize (H23 p).
  destruct (heap1 !! p) as [[hk|]|]; [| |done].
  - destruct H12 as [H12|(hk2 & H12 & Hm & Hk)]; rewrite H12 in H23.
    + by left.
    + destruct H23 as [?|(hk3 & ? & ? & ?)]; [by left|].
      right. exists hk3. split_and!; [done|congruence..].
  - by rewrite H12 in H23.
Qed.

Lemma heap_kept_app heap cell : heap_kept heap (heap ++ [cell]).
Proof.
  intros p. destruct (heap !! p) as [[hk|]|] eqn:Hp; [| |done].
  - right. exists hk. split; [|done]. by apply lookup_app_l_Some.
  - by apply lookup_app_l_Some.
Qed.

Lemma heap_kept_insert heap p hk cell :
  heap !! p = Some (Some hk) →
  (if cell is Some hk' then mods hk' = mods hk ∧ key hk' = key hk else True) →
  heap_kept heap (<[p := cell]> heap).
Proof.
  intros Hp Hcell q. destruct (decide (q = p)) as [->|Hne].
  - rewrite Hp. rewrite list_lookup_insert_eq by by eapply lookup_lt_Some.
    destruct cell as [hk'|]; [|by left]. right. by exists hk'.
  - rewrite list_lookup_insert_ne by done.
    destruct (heap !! q) as [[hkq|]|]; eauto.
Qed.

Lemma exec_heap_kept op heap s r heap' s' :
  exec op heap s = Done ((r, heap'), s') → heap_kept heap heap'.
Proof.
  destruct op as [ms k|p|p|p|p|p| |p]; simpl; unfold with_hotkey;
    try (destruct (heap !! p) as [[hk|]|] eqn:Hp; [|done..]); intros He.
  - apply bind_Done in He as (hk & s1 & _ & [= _ <- _]). apply heap_kept_app.
  - apply bind_Done in He as ([hk' e] & s1 & Hr & [= _ <- _]).
    apply register_frame in Hr as (_ & Hm & Hk & _).
    by apply (heap_kept_insert _ _ hk).
  - apply bind_Done in He as ([hk' e] & s1 & Hu & [= _ <- _]).
    apply Unregister_touches in Hu as (Hm & Hk & _).
    by apply (heap_kept_insert _ _ hk).
  - injection He as _ <- _. apply heap_kept_refl.
  - injection He as _ <- _. apply heap_kept_refl.
  - injection He as _ <- _. apply heap_kept_refl.
  - apply bind_Done in He as (io & s1 & _ & [= _ <- _]). apply heap_kept_refl.
  - apply bind_Done in He as ([] & s1 & _ & [= _ <- _]).
    by apply (heap_kept_insert _ _ hk).
Qed.

Lemma execs_heap_kept ops : ∀ heap s rs heap' s',
  execs ops heap s = Done ((rs, heap'), s') → heap_kept heap heap'.
Proof.
  induction ops as [|op ops IH]; intros heap s rs heap' s' He; simpl in He.
  - injection He as _ <- _. apply heap_kept_refl.
  - apply bind_Done in He as ([r heap1] & s1 & H1 & He).
    apply bind_Done in He as ([rs' heap2] & s2 & H2 & [= _ <- _]).
    eapply heap_kept_trans; [by eapply exec_heap_kept|by eapply IH].
Qed.

(** X6.  No program of calls into the package changes the combination of
    a Hotkey: a Hotkey that is still in the heap afterwards has the
    modifiers and the key it had, so [String] returns what it returned
    before; and a Hotkey that was collected stays collected. *)
Theorem combination_is_immutable (ops : list Op) heap s (rs : list Ret)
    (heap' : list (option Hotkey)) s' :
  execs ops heap s = Done ((rs, heap'), s') →
  (∀ p hk hk', heap !! p = Some (Some hk) → heap' !! p = Some (Some hk') →
     mods hk' = mods hk ∧ key hk' = key hk ∧ String hk' = String hk) ∧
  (∀ p, heap !! p = Some None → heap' !! p = Some None).
Proof.
  intros Hk%execs_heap_kept. split.
  - intros p hk hk' Hp Hp'. specialize (Hk p). rewrite Hp, Hp' in Hk.
    destruct Hk as [?|(hk2 & [= <-] & Hm & Hkey)]; [done|].
    unfold String. by rewrite Hm, Hkey.
  - intros p Hp. specialize (Hk p). by rewrite Hp in Hk.
Qed.

(** *** The package never closes a channel twice *)

Lemma live_lt hk s n : live hk s → owns hk n → n < length (chans s).
Proof.
  intros (_ & cd & cu & Hcd & Hcu & _) [->| ->]; by eapply lookup_lt_Some.
Qed.

Lemma live_frame hk s s' :
  live hk s → (∀ n, owns hk n → chans s' !! n = chans s !! n) → live hk s'.
Proof.
  intros (Hne & cd & cu & Hcd & Hcu & Hod & Hou) Hsame. split; [done|].
  exists cd, cu. rewrite !Hsame; [done|by right|by left].
Qed.

Lemma only_touches_refl X s : only_touches X s s.
Proof. by split. Qed.

Lemma only_touches_eq X s s' : chans s' = chans s → only_touches X s s'.
Proof. intros Heq. unfold only_touches. by rewrite Heq. Qed.

Lemma only_touches_alloc X s c :
  only_touches X s (set_chans (λ cs, cs ++ [c]) s).
Proof.
  split; simpl; [rewrite length_app; lia|].
  intros n Hn _. by rewrite lookup_app_l.
Qed.

Lemma only_touches_trans X s1 s2 s3 :
  only_touches X s1 s2 → only_touches X s2 s3 → only_touches X s1 s3.
Proof.
  intros [Hl12 H12] [Hl23 H23]. split; [lia|].
  intros n Hn HX. rewrite H23, H12; [done..|lia|done].
Qed.

(** One cell of the heap is replaced, after a step that touched only the
    channels of the Hotkey in that cell. *)
Lemma heap_ok_update heap s p hk (cell : option Hotkey) s' :
  heap_ok heap s →
  heap !! p = Some (Some hk) →
  only_touches (owns hk) s s' →
  (if cell is Some hk'
   then live hk' s' ∧ ∀ n, owns hk' n → owns hk n ∨ length (chans s) ≤ n
   else True) →
  heap_ok (<[p := cell]> heap) s'.
Proof.
  intros [Hlive Hdis] Hp [_ Hsame] Hcell.
  pose proof (lookup_lt_Some _ _ _ Hp) as Hlt.
  assert (Hothers : ∀ q hkq, q ≠ p → heap !! q = Some (Some hkq) →
            live hkq s' ∧ ∀ n, owns hkq n → n < length (chans s) ∧ ¬ owns hk n).
  { intros q hkq Hne Hq. split.
    - apply (live_frame _ s); [by eapply Hlive|]. intros n Hn.
      apply Hsame; [by eapply live_lt; [eapply Hlive|]|].
      by eapply (Hdis q p).
    - intros n Hn. split; [by eapply live_lt; [eapply Hlive|]|].
      by eapply (Hdis q p). }
  split.
  - intros q hkq Hq. destruct (decide (q = p)) as [->|Hne].
    + rewrite list_lookup_insert_eq in Hq by done. simplify_eq. by destruct Hcell.
    + rewrite list_lookup_insert_ne in Hq by done. by eapply Hothers.
  - intros q1 q2 hk1 hk2 n Hne H1 H2 Hn1 Hn2.
    destruct (decide (q1 = p)) as [->|Hne1];
      [rewrite list_lookup_insert_eq in H1 by done
      |rewrite list_lookup_insert_ne in H1 by done];
      (destruct (decide (q2 = p)) as [->|Hne2];
        [rewrite list_lookup_insert_eq in H2 by done
        |rewrite list_lookup_insert_ne in H2 by done]); [done|..].
    + simplify_eq. destruct Hcell as [_ Hnew].
      destruct (Hothers _ _ Hne2 H2) as [_ Ho]. destruct (Ho _ Hn2) as [Hlt2 Hno].
      destruct (Hnew _ Hn1) as [?|?]; [done|lia].
    + simplify_eq. destruct Hcell as [_ Hnew].
      destruct (Hothers _ _ Hne1 H1) as [_ Ho]. destruct (Ho _ Hn1) as [Hlt1 Hno].
      destruct (Hnew _ Hn2) as [?|?]; [done|lia].
    + by eapply (Hdis q1 q2).
Qed.

(** Channels are allocated, and the heap perhaps grows by a Hotkey that
    holds channels allocated in this step. *)
Lemma heap_ok_alloc heap s s' (new : list (option Hotkey)) :
  heap_ok heap s →
  only_touches (λ _, False) s s' →
  (∀ hk, new = [Some hk] →
         live hk s' ∧ ∀ n, owns hk n → length (chans s) ≤ n) →
  new = [] ∨ (∃ hk, new = [Some hk]) →
  heap_ok (heap ++ new) s'.
Proof.
  intros [Hlive Hdis] [_ Hsame] Hnew Hshape.
  assert (Hold : ∀ q hkq, heap !! q = Some (Some hkq) →
            live hkq s' ∧ ∀ n, owns hkq n → n < length (chans s)).
  { intros q hkq Hq. split.
    - apply (live_frame _ s); [by eapply Hlive|]. intros n Hn.
      apply Hsame; [by eapply live_lt; [eapply Hlive|]|tauto].
    - intros n Hn. by eapply live_lt; [eapply Hlive|]. }
  destruct Hshape as [->|[hk ->]]; [rewrite app_nil_r|].
  - split; [intros q hkq Hq; by eapply Hold|done].
  - destruct (Hnew hk eq_refl) as [Hl Hfresh].
    assert (Hcase : ∀ q hkq, (heap ++ [Some hk]) !! q = Some (Some hkq) →
              (q < length heap ∧ heap !! q = Some (Some hkq)) ∨
              (q = length heap ∧ hkq = hk)).
    { intros q hkq Hq. apply lookup_app_Some in Hq as [Hq|[Hge Hq]].
      - left. split; [by eapply lookup_lt_Some|done].
      - right. apply list_lookup_singleton_Some in Hq as [Hz [= ->]].
        split; [lia|done]. }
    split.
    + intros q hkq [[_ Hq]|[_ ->]]%Hcase; [by eapply Hold|done].
    + intros q1 q2 hk1 hk2 n Hne
        [[Hl1 H1]|[-> ->]]%Hcase [[Hl2 H2]|[-> ->]]%Hcase Hn1 Hn2.
      * by eapply (Hdis q1 q2).
      * destruct (Hold _ _ H1) as [_ Ho]. specialize (Ho _ Hn1).
        specialize (Hfresh _ Hn2). lia.
      * destruct (Hold _ _ H2) as [_ Ho]. specialize (Ho _ Hn2).
        specialize (Hfresh _ Hn1). lia.
      * done.
Qed.

Lemma register_total hk s : ∃ hk' r s', register hk s = Done ((hk', r), s').
Proof.
  unfold register, bind_token. destruct (platformHotkey hk) as [t|].
  - destruct (backend_unregister t (world s)) as [w [e|]]; [by eexists _, _, _|].
    simpl. destruct (backend_register _ _ w) as [w' [t'|e']]; by eexists _, _, _.
  - destruct (backend_register _ _ (world s)) as [w' [t'|e']]; by eexists _, _, _.
Qed.

Lemma Unregister_total hk s :
  live hk s → ∃ hk' r s', Unregister hk s = Done ((hk', r), s').
Proof.
  intros (Hne & cd & cu & Hcd & Hcu & Hod & Hou).
  destruct (unregister_frame hk s) as (r & w & Hf).
  unfold Unregister, bind at 1. rewrite Hf. simpl.
  destruct r as [e|]; [by eexists _, _, _|].
  destruct hk as [tok ms k [kd] kdo [ku] kuo]; simpl in *.
  eexists _, _, _. apply bind_Done. eexists (), _. split.
  { apply closeIn_Done. by exists cd. }
  apply bind_Done. eexists (), _. split.
  { apply closeIn_Done. exists cu. simpl. by rewrite list_lookup_insert_ne. }
  reflexivity.
Qed.

Lemma finalizer_touches hk s s' :
  finalizer hk s = Done ((), s') → only_touches (owns hk) s s'.
Proof.
  intros HF. destruct (unregister_frame hk s) as (r & w & Hf).
  unfold finalizer in HF.
  apply bind_Done in HF as ([hk1 r1] & s1 & Hu & HF).
  rewrite Hf in Hu. injection Hu as <- <- <-. simpl in HF.
  destruct hk as [tok ms k [kd] kdo [ku] kuo]; simpl in *.
  apply bind_Done in HF as ([] & s2 & Hc1 & Hc2).
  apply closeIn_Done in Hc1 as (cd & Hcd & Hod & ->).
  apply closeIn_Done in Hc2 as (cu & Hcu & Hou & ->).
  unfold only_touches, owns. simpl. rewrite !length_insert. split; [done|].
  intros n Hn Hown.
  rewrite !list_lookup_insert_ne; [done|intros <-; apply Hown; by left|].
  intros <-. apply Hown; by right.
Qed.

(** One call into the package from a good heap returns, with the heap
    good again, unless its pointer names no Hotkey. *)
Lemma exec_ok op heap s :
  heap_ok heap s →
  (∃ r heap' s', exec op heap s = Done ((r, heap'), s') ∧ heap_ok heap' s') ∨
  exec op heap s = Panic nil_deref.
Proof.
  intros Hok.
  destruct op as [ms k|p|p|p|p|p| |p]; simpl; unfold with_hotkey;
    try (destruct (heap !! p) as [[hk|]|] eqn:Hp; [|by right..]); left.
  - destruct (New_live ms k s) as (hk & s' & HN & Hl & _).
    eexists _, _, s'. split; [unfold bind; by rewrite HN|].
    apply (heap_ok_alloc _ s); [done| | |by eauto].
    + injection HN as _ <-.
      eapply only_touches_trans; apply only_touches_alloc.
    + intros hk0 [= <-]. split; [done|].
      injection HN as <- _. intros n [->| ->]; simpl; [lia|].
      rewrite length_app. lia.
  - destruct (register_total hk s) as (hk' & r & s' & HR).
    eexists _, _, s'. split; [unfold bind, Register; by rewrite HR|].
    destruct (register_frame _ _ _ _ _ HR) as ((H1 & _ & H3 & _) & _ & _ & Hc & _).
    apply (heap_ok_update _ s _ hk); [done|done|by apply only_touches_eq|].
    simpl. split.
    + destruct Hok as [Hlive _].
      destruct (Hlive _ _ Hp) as (Hne & cd & cu & ? & ? & ? & ?).
      split; [by rewrite H1, H3|]. exists cd, cu. by rewrite H1, H3, Hc.
    + intros n. unfold owns. rewrite H1, H3. by left.
  - destruct Hok as [Hlive Hdis].
    destruct (Unregister_total hk s (Hlive _ _ Hp)) as (hk' & r & s' & HU).
    eexists _, _, s'. split; [unfold bind; by rewrite HU|].
    destruct (Unregister_touches _ _ _ _ _ HU) as (_ & _ & _ & Ht).
    apply (heap_ok_update _ s _ hk); [done|done|done|]. simpl.
    destruct (Unregister_inv _ _ _ _ _ HU) as [->|(e & w & -> & -> & ->)].
    + destruct (Unregister_live _ _ _ _ HU) as (Hl' & _).
      split; [done|].
      apply Unregister_Done in HU as (w & cd & cu & _ & _ & _ & _ & _ & -> & _).
      intros n [->| ->]; right; simpl; lia.
    + split; [|by left]. apply (live_frame hk s); [by eapply Hlive|done].
  - eexists _, _, s. by split.
  - eexists _, _, s. by split.
  - eexists _, _, s. by split.
  - eexists _, _, _. split; [reflexivity|].
    rewrite <-(app_nil_r heap).
    apply (heap_ok_alloc _ s); [done|apply only_touches_alloc|done|by left].
  - destruct Hok as [Hlive Hdis].
    destruct (finalizer_live hk s (Hlive _ _ Hp)) as (w & cd & cu & _ & _ & HF).
    eexists _, _, _. split; [unfold bind; by rewrite HF|].
    apply (heap_ok_update _ s _ hk); [done|done| |done].
    by apply finalizer_touches.
Qed.

(** X7.  From a heap in which every Hotkey has two open channels of its
    own, as [New] makes them, every program of calls into the package
    runs to its end and leaves such a heap, unless it uses a pointer that
    names no Hotkey: no call closes a closed or a nil channel, and none
    suspends. *)
Theorem never_closes_twice (ops : list Op) heap s :
  heap_ok heap s →
  (∃ rs heap' s', execs ops heap s = Done ((rs, heap'), s') ∧ heap_ok heap' s') ∨
  execs ops heap s = Panic nil_deref.
Proof.
  revert heap s. induction ops as [|op ops IH]; intros heap s Hok.
  - left. by eexists _, _, _.
  - simpl. unfold bind.
    destruct (exec_ok op heap s Hok) as [(r & heap1 & s1 & He & Hok1)|He];
      rewrite He; [|right; reflexivity].
    cbn [fst snd].
    destruct (IH heap1 s1 Hok1) as [(rs & heap2 & s2 & Hes & Hok2)|Hes];
      rewrite Hes; [|right; reflexivity].
    left. by eexists _, _, _.
Qed.

(** *** The table [KeyMap] *)

(** X8.  On every platform [KeyMap] has 65 entries; it maps the Go
    identifier of each key constant to that constant and holds nothing
    else, so a lookup of any other name misses; and the names it holds
    are the names [TestKeyMap] looks up. *)
Theorem KeyMap_table :
  size KeyMap = 65 ∧
  (∀ k : KeyName, KeyMap !! keyName k = Some (keyCode k)) ∧
  (∀ name v, KeyMap !! name = Some v → ∃ k, name = keyName k ∧ v = keyCode k) ∧
  (∀ name, is_Some (KeyMap !! name) ↔ name ∈ keyMapKeys).
Proof.
  split_and!.
  - by vm_compute.
  - intros k. destruct k; by vm_compute.
  - intros name v H. unfold KeyMap in H. apply elem_of_list_to_map_2 in H.
    repeat (apply elem_of_cons in H as [[= -> ->]|H];
            [eexists; split; [|reflexivity]; reflexivity|]).
    by apply elem_of_nil in H.
  - intros name. rewrite <-elem_of_dom. unfold KeyMap.
    by rewrite dom_list_to_map_L, elem_of_list_to_set.
Qed.

(** *** From [New] to the consumer *)

Notation "'let!' x ':=' m 'in' k" := (bind m (λ x, k))
  (at level 10, x pattern, m at level 100, k at level 200).
Notation "m ';;;' k" := (bind m (λ _, k))
  (at level 100, k at level 200, right associativity).

Lemma set_chans_id s : set_chans (λ cs, cs) s = s.
Proof. by destruct s. Qed.

Lemma sendIn_loop i q s :
  chans s !! i = Some (Chan false (loop_head q)) →
  sendIn (InOf i) mkEvent s
  = Done ((), set_chans (λ cs, <[i := Chan false (loop_head (q ++ [mkEvent]))]> cs) s).
Proof.
  intros Hc. unfold sendIn, bind, on_chan, ret. simpl. rewrite Hc.
  by destruct q.
Qed.

Lemma sendsIn_loop n : ∀ i q s,
  chans s !! i = Some (Chan false (loop_head q)) →
  sendsIn n (InOf i) s
  = Done ((), set_chans
                (λ cs, <[i := Chan false (loop_head (q ++ replicate n mkEvent))]> cs) s).
Proof.
  induction n as [|n IH]; intros i q s Hc; simpl.
  - unfold ret. rewrite app_nil_r. destruct s as [cs km w cl]. unfold set_chans.
    simpl in *. by rewrite list_insert_id.
  - unfold bind. rewrite (sendIn_loop i q s Hc).
    rewrite (IH i (q ++ [mkEvent])).
    + destruct s as [cs km w cl]. unfold set_chans. simpl.
      by rewrite list_insert_insert_eq, <-(assoc_L (++)).
    + simpl. apply list_lookup_insert_eq. by eapply lookup_lt_Some.
Qed.

Lemma recvOut_loop n i b (q : list Event) s :
  length q = n →
  chans s !! i = Some (Chan b (loop_head q)) →
  recvOut n (OutOf i) s
  = Done (Got <$> q, set_chans (λ cs, <[i := Chan b AtRecvIn]> cs) s).
Proof.
  intros <- Hc. unfold recvOut. simpl. by rewrite Hc, consume_loop.
Qed.

Lemma recvOut_blocked i s :
  chans s !! i = Some newChan → recvOut 1 (OutOf i) s = Blocked.
Proof. intros Hc. unfold recvOut. simpl. by rewrite Hc. Qed.

(** Two fresh channels carry their events independently. *)
Lemma two_channels i j n m s :
  i ≠ j →
  chans s !! i = Some newChan → chans s !! j = Some newChan →
  ∃ s2, (sendsIn n (InOf i) ;;; sendsIn m (InOf j) ;;;
         let! d := recvOut n (OutOf i) in
         let! u := recvOut m (OutOf j) in ret (d, u)) s
        = Done ((replicate n (Got mkEvent), replicate m (Got mkEvent)), s2) ∧
        recvOut 1 (OutOf i) s2 = Blocked ∧ recvOut 1 (OutOf j) s2 = Blocked.
Proof.
  intros Hne Hi Hj.
  pose proof (lookup_lt_Some _ _ _ Hi) as Hli.
  pose proof (lookup_lt_Some _ _ _ Hj) as Hlj.
  eexists. split_and!.
  - unfold bind at 1. rewrite (sendsIn_loop n i [] s Hi).
    unfold bind at 1. rewrite (sendsIn_loop m j []);
      [|by simpl; rewrite list_lookup_insert_ne].
    unfold bind at 1. rewrite (recvOut_loop n i false (replicate n mkEvent));
      [|by rewrite length_replicate
       |by simpl; rewrite list_lookup_insert_ne, list_lookup_insert_eq].
    unfold bind at 1. rewrite (recvOut_loop m j false (replicate m mkEvent));
      [|by rewrite length_replicate|].
    + unfold ret. by rewrite !fmap_replicate.
    + simpl. rewrite list_lookup_insert_ne by done.
      by rewrite list_lookup_insert_eq by by rewrite length_insert.
  - apply recvOut_blocked. simpl.
    rewrite list_lookup_insert_ne by done.
    by rewrite list_lookup_insert_eq by by rewrite !length_insert.
  - apply recvOut_blocked. simpl.
    by rewrite list_lookup_insert_eq by by rewrite !length_insert.
Qed.

(** X9.  [New] always returns, without a call to the backend: the Hotkey
    holds the given modifiers and key and no token, and two event channels
    allocated by this call, open and empty, behind everything allocated
    before.  Its four handles are wired in pairs: [n] events sent on the
    key-down producer handle and [m] on the key-up producer handle are
    received as [n] events from [Keydown] and [m] from [Keyup], after
    which a receive on either suspends. *)
Theorem New_wires_channels (ms : list Modifier) (k : Key) s (n m : nat) :
  ∃ hk s1,
    New ms k s = Done (hk, s1) ∧
    (platformHotkey hk = None ∧ mods hk = ms ∧ key hk = k) ∧
    (chans s1 = chans s ++ [newChan; newChan] ∧ keyMap s1 = keyMap s ∧
     world s1 = world s ∧ calls s1 = calls s) ∧
    Keydown hk ≠ Keyup hk ∧
    ∃ s2, (sendsIn n (keydownIn hk) ;;; sendsIn m (keyupIn hk) ;;;
           let! d := recvOut n (Keydown hk) in
           let! u := recvOut m (Keyup hk) in ret (d, u)) s1
          = Done ((replicate n (Got mkEvent), replicate m (Got mkEvent)), s2) ∧
          recvOut 1 (Keydown hk) s2 = Blocked ∧
          recvOut 1 (Keyup hk) s2 = Blocked.
Proof.
  eexists _, _. split; [reflexivity|]. simpl.
  split_and!; try done.
  - by rewrite <-(assoc_L (++)).
  - unfold Keydown, Keyup. simpl. rewrite length_app. simpl. intros [= ?]. lia.
  - unfold Keydown, Keyup. simpl. apply two_channels.
    + rewrite length_app. simpl. lia.
    + simpl. rewrite lookup_app_l by (rewrite length_app; simpl; lia).
      by rewrite lookup_app_r, Nat.sub_diag.
    + simpl. rewrite lookup_app_r by (rewrite length_app; simpl; lia).
      by rewrite Nat.sub_diag.
Qed.

End Package.
End HotkeyExtras.

(** * The further properties at work on concrete executions *)

Module ExtraScenarios.
Import EventChan EventChanProps Hotkey HotkeyProps HotkeyExtras Stub.
#[local] Existing Instance stub.

Lemma later_run (km : gmap string nat) :
  execs later_ops heap0 (s0_over km) = Done ((later_rets, [None]), later_end km).
Proof. by vm_compute. Qed.

Lemma mid_run (km : gmap string nat) :
  execs mid_ops heap0 (s0_over km) = Done (([RErr None; RErr None], [Some hk2]), mid_end km).
Proof. by vm_compute. Qed.

Lemma heap0_ok : heap_ok heap0 s0.
Proof.
  split.
  - intros [|p] hk Hp; simplify_eq/=. exact HotkeyScenarios.live_hk0.
  - intros [|p] [|q] hk hk' n Hne Hp Hq; simplify_eq/=.
Defined.

Lemma Unregister_frame_witness :
  Unregister hk0 s0 = Done ((hk1, None), s1) ∧
  mods hk1 = mods hk0 ∧ key hk1 = key hk0 ∧
  length (chans s1) = length (chans s0) + 2 ∧
  ∀ n, n < length (chans s0) →
       n ≠ in_id (keydownIn hk0) → n ≠ in_id (keyupIn hk0) →
       chans s1 !! n = chans s0 !! n.
Proof.
  split; [reflexivity|].
  exact (Unregister_frame hk0 s0 hk1 None s1 eq_refl).
Defined.

Lemma channels_are_kept_witness :
  execs later_ops heap0 s0 = Done ((later_rets, [None]), later_end KeyMap) ∧
  ∀ n c, chans s0 !! n = Some c →
    ∃ c', chans (later_end KeyMap) !! n = Some c' ∧
          wk c' = wk c ∧ pending (wk c') = pending (wk c) ∧
          (in_closed c = true → in_closed c' = true).
Proof.
  split; [exact (later_run KeyMap)|].
  exact (channels_are_kept later_ops heap0 s0 _ _ _ (later_run KeyMap)).
Defined.

Lemma combination_is_immutable_witness :
  execs mid_ops heap0 s0 = Done (([RErr None; RErr None], [Some hk2]), mid_end KeyMap) ∧
  (∀ p hk hk', heap0 !! p = Some (Some hk) → [Some hk2] !! p = Some (Some hk') →
     mods hk' = mods hk ∧ key hk' = key hk ∧ String hk' = String hk) ∧
  (∀ p, heap0 !! p = Some None → [Some hk2] !! p = Some None).
Proof.
  split; [exact (mid_run KeyMap)|].
  exact (combination_is_immutable mid_ops heap0 s0 _ _ _ (mid_run KeyMap)).
Defined.

Lemma never_closes_twice_witness :
  heap_ok heap0 s0 ∧
  ((∃ rs heap' s', execs later_ops heap0 s0 = Done ((rs, heap'), s') ∧
                   heap_ok heap' s') ∨
   execs later_ops heap0 s0 = Panic nil_deref).
Proof.
  split; [exact heap0_ok|].
  exact (never_closes_twice later_ops heap0 s0 heap0_ok).
Defined.

(** The program of the witness runs to its end; one that uses the
    collected Hotkey afterwards stops at the pointer. *)
Example collected_pointer :
  execs (later_ops ++ [OUnregister 0]) heap0 s0 = Panic nil_deref.
Proof. exact (eq_refl : execs (later_ops ++ [OUnregister 0]) heap0 (s0_over KeyMap) = _). Qed.

(** Outside the heap discipline the same calls do panic: [Unregister] on a
    Hotkey whose two producer handles are one channel. *)
Example shared_channel_panics :
  Unregister (mkHotkey (Some 0) combo keyS (InOf 0) (OutOf 0) (InOf 0) (OutOf 0)) s0
  = Panic close_of_closed.
Proof. reflexivity. Qed.

End ExtraScenarios.
